(** * Operation log and visibility resolution of the collaborative canvas

    A shallow embedding of [server/drawingState.ts] (class [DrawingState]):
    the stroke store, the append-only operation log, undo/redo and the
    visibility computed from the log.

    Modelling conventions.
    - [uuidv4()] and [Date.now()] are the only sources of nondeterminism.
      Every method that calls them takes their results as extra arguments
      ([newId], [now]); freshness of the generated identifier is a
      hypothesis where a property depends on it, never built in.
    - [Map<string, Stroke>] iterates in insertion order, and
      [getVisibleStrokes] iterates it: the store is an association list
      whose [map_set] overwrites in place or appends, as [Map.set] does.
    - A [Stroke] object is shared between the map and the caller; the model
      writes the mutated record back under the same key, which is what the
      in-place mutation does to the one object the map holds.
    - [number] fields that hold coordinates and widths are floats;
      timestamps produced by [Date.now()] are integers.
    - A call with a spread argument ([push(...points)]) throws a
      [RangeError] when the array is longer than the engine admits at that
      moment. The admitted number is an input of the call ([maxArgs]), like
      the results of [uuidv4()]; no property fixes its value.
    - A [string] holds one character per UTF-16 code unit of the source
      string, which covers the strings whose code units are below 256 (the
      socket and stroke identifiers are ASCII); lengths and [substring]
      then count the same units as the source does. *)

From Stdlib Require Import List String ZArith Lia Bool Arith PeanoNat.
From Stdlib Require Import Floats.PrimFloat.
From Stdlib Require Import Sorting.Sorted.
From Stdlib Require Import DecimalString Ascii.
Import ListNotations.
Open Scope string_scope.
Open Scope list_scope.

(** ** Data model *)

Inductive Tool : Type := brush | eraser.

Record Point : Type := mkPoint { x : float; y : float; t : float }.

Record Stroke : Type := mkStroke {
  id : string;
  userId : string;
  tool : Tool;
  color : string;
  width : float;
  points : list Point;
  complete : bool
}.

(** The tagged union [Operation]; fields in the order of the type
    declaration. *)
Inductive Operation : Type :=
| OpStroke (strokeId : string) (timestamp : Z) (opUser : string)
| OpUndo (targetStrokeId : string) (timestamp : Z) (opUser : string) (opId : string)
| OpRedo (targetUndoOpId : string) (timestamp : Z) (opUser : string) (opId : string).

Record DrawingState : Type := mkState {
  strokes : list (string * Stroke);
  operations : list Operation
}.

(** [new DrawingState()] *)
Definition emptyState : DrawingState := mkState [] [].

(** ** The insertion-ordered map *)

(** [Map.prototype.get] *)
Fixpoint map_get (k : string) (m : list (string * Stroke)) : option Stroke :=
  match m with
  | [] => None
  | (k', v) :: rest => if String.eqb k' k then Some v else map_get k rest
  end.

(** [Map.prototype.set]: an existing key keeps its position and gets the new
    value, a new key goes to the end. *)
Fixpoint map_set (k : string) (v : Stroke) (m : list (string * Stroke))
  : list (string * Stroke) :=
  match m with
  | [] => [(k, v)]
  | (k', v') :: rest =>
      if String.eqb k' k then (k', v) :: rest else (k', v') :: map_set k v rest
  end.

(** ** Array helpers *)

(** [Array.prototype.indexOf] on an array of strings: -1 when absent. *)
Fixpoint indexOf_from (i : Z) (l : list string) (k : string) : Z :=
  match l with
  | [] => (-1)%Z
  | a :: rest => if String.eqb a k then i else indexOf_from (i + 1)%Z rest k
  end.

Definition indexOf (l : list string) (k : string) : Z := indexOf_from 0%Z l k.

(** [Array.prototype.sort] with a comparator. The language guarantees a
    stable sort, so for a comparator that is the difference of a key the
    result is the one stable ordering by that key; stable insertion gives
    it: an element is placed before the first later element that does not
    compare smaller. *)
Section Sort.
Context {A : Type} (cmp : A -> A -> Z).

Fixpoint sort_insert (a : A) (l : list A) : list A :=
  match l with
  | [] => [a]
  | b :: rest =>
      if (cmp a b <=? 0)%Z then a :: b :: rest else b :: sort_insert a rest
  end.

Definition array_sort (l : list A) : list A := fold_right sort_insert [] l.
End Sort.

(** The last element of an array, if any. *)
Fixpoint last_opt {A : Type} (l : list A) : option A :=
  match l with
  | [] => None
  | [a] => Some a
  | _ :: rest => last_opt rest
  end.

(** ** Methods of [DrawingState] *)

Definition createStroke (st : DrawingState) (user : string) (tl : Tool)
    (col : string) (w : float) (newId : string) (now : Z)
  : Stroke * DrawingState :=
  let stroke := mkStroke newId user tl col w [] false in
  (stroke,
   mkState (map_set newId stroke (strokes st))
           (operations st ++ [OpStroke newId now user])).

(** How a call ends: it returns a value, or it throws the [RangeError] of a
    call with too many arguments. *)
Inductive Completion (A : Type) : Type :=
| Returned (a : A)
| ThrownRangeError.
Arguments Returned {A} a.
Arguments ThrownRangeError {A}.

(** [appendPoints]. The points are pushed by the spread call
    [stroke.points.push(...points)], which passes every point as an argument
    of its own. [maxArgs] is the number of arguments the engine admits in
    that call (a limit of the engine and of the stack that is left, an input
    from the environment like the results of [uuidv4()]): with a longer
    batch the call throws a [RangeError] before anything is pushed. *)
Definition appendPoints (st : DrawingState) (strokeId : string)
    (pts : list Point) (maxArgs : nat) : Completion bool * DrawingState :=
  match map_get strokeId (strokes st) with
  | None => (Returned false, st)
  | Some stroke =>
      if (List.length pts <=? maxArgs)%nat then
        let stroke' :=
          mkStroke (id stroke) (userId stroke) (tool stroke) (color stroke)
                   (width stroke) (points stroke ++ pts) (complete stroke) in
        (Returned true,
         mkState (map_set strokeId stroke' (strokes st)) (operations st))
      else (ThrownRangeError, st)
  end.

Definition completeStroke (st : DrawingState) (strokeId : string)
  : bool * DrawingState :=
  match map_get strokeId (strokes st) with
  | None => (false, st)
  | Some stroke =>
      let stroke' :=
        mkStroke (id stroke) (userId stroke) (tool stroke) (color stroke)
                 (width stroke) (points stroke) true in
      (true, mkState (map_set strokeId stroke' (strokes st)) (operations st))
  end.

(** The predicate of [operations.find(op => op.type === 'undo' && op.id === i)]. *)
Definition is_undo_with_id (i : string) (op : Operation) : bool :=
  match op with
  | OpUndo _ _ _ i' => String.eqb i' i
  | _ => false
  end.

(** The predicate of
    [operations.some(op => op.type === 'redo' && op.targetUndoOpId === i)]. *)
Definition is_redo_of (i : string) (op : Operation) : bool :=
  match op with
  | OpRedo tgt _ _ _ => String.eqb tgt i
  | _ => false
  end.

(** One iteration of the loop of [isStrokeVisible]; the accumulator is
    [(undoCount, redoCount)]. *)
Definition visible_step (ops : list Operation) (sid : string)
    (acc : nat * nat) (op : Operation) : nat * nat :=
  let '(undoCount, redoCount) := acc in
  match op with
  | OpUndo tgt _ _ _ =>
      if String.eqb tgt sid then (S undoCount, redoCount) else acc
  | OpRedo tgtUndo _ _ _ =>
      match find (is_undo_with_id tgtUndo) ops with
      | Some (OpUndo tgt _ _ _) =>
          if String.eqb tgt sid then (undoCount, S redoCount) else acc
      | _ => acc
      end
  | OpStroke _ _ _ => acc
  end.

Definition visible_counts (ops : list Operation) (sid : string) : nat * nat :=
  fold_left (visible_step ops sid) ops (0, 0).

Definition isStrokeVisible (st : DrawingState) (sid : string) : bool :=
  let '(undoCount, redoCount) := visible_counts (operations st) sid in
  (undoCount <=? redoCount)%nat.

Definition undoStroke (st : DrawingState) (user : string)
    (targetStrokeId : string) (newId : string) (now : Z)
  : option string * DrawingState :=
  match map_get targetStrokeId (strokes st) with
  | None => (None, st)
  | Some _ =>
      if negb (isStrokeVisible st targetStrokeId) then (None, st)
      else (Some newId,
            mkState (strokes st)
                    (operations st ++ [OpUndo targetStrokeId now user newId]))
  end.

Definition redoStroke (st : DrawingState) (user : string)
    (targetUndoOpId : string) (newId : string) (now : Z)
  : bool * DrawingState :=
  match find (is_undo_with_id targetUndoOpId) (operations st) with
  | None => (false, st)
  | Some _ =>
      if existsb (is_redo_of targetUndoOpId) (operations st) then (false, st)
      else (true,
            mkState (strokes st)
                    (operations st ++ [OpRedo targetUndoOpId now user newId]))
  end.

(** [operations.filter(op => op.type === 'stroke').map(op => op.strokeId)] *)
Fixpoint strokeOrder (ops : list Operation) : list string :=
  match ops with
  | [] => []
  | OpStroke sid _ _ :: rest => sid :: strokeOrder rest
  | _ :: rest => strokeOrder rest
  end.

(** The comparator handed to [result.sort]. *)
Definition order_cmp (order : list string) (a b : Stroke) : Z :=
  (indexOf order (id a) - indexOf order (id b))%Z.

Definition getVisibleStrokes (st : DrawingState) : list Stroke :=
  let result :=
    map snd (filter (fun kv => isStrokeVisible st (fst kv)) (strokes st)) in
  array_sort (order_cmp (strokeOrder (operations st))) result.

Definition getLastVisibleStrokeByUser (st : DrawingState) (user : string)
  : option string :=
  let visibleStrokes :=
    filter (fun s => String.eqb (userId s) user && complete s)
           (getVisibleStrokes st) in
  option_map id (last_opt visibleStrokes).

Definition getStroke (st : DrawingState) (strokeId : string) : option Stroke :=
  map_get strokeId (strokes st).

(** ** Commands: the mutating methods as a transition system

    A command carries the arguments of the call and what the environment
    contributes to it: the values [uuidv4()] and [Date.now()] return, and
    for [appendPoints] the number of arguments the engine admits. A call
    that throws leaves the state as it is. *)

Inductive Command : Type :=
| CreateStroke (user : string) (tl : Tool) (col : string) (w : float)
               (newId : string) (now : Z)
| AppendPoints (strokeId : string) (pts : list Point) (maxArgs : nat)
| CompleteStroke (strokeId : string)
| UndoStroke (user : string) (targetStrokeId : string) (newId : string) (now : Z)
| RedoStroke (user : string) (targetUndoOpId : string) (newId : string) (now : Z).

(** Whether the call is accepted (not [false]/[null]). *)
Definition accepted (st : DrawingState) (c : Command) : bool :=
  match c with
  | CreateStroke _ _ _ _ _ _ => true
  | AppendPoints sid pts lim =>
      match fst (appendPoints st sid pts lim) with
      | Returned true => true
      | _ => false
      end
  | CompleteStroke sid => fst (completeStroke st sid)
  | UndoStroke u tgt i now =>
      match fst (undoStroke st u tgt i now) with Some _ => true | None => false end
  | RedoStroke u tgt i now => fst (redoStroke st u tgt i now)
  end.

Definition step (st : DrawingState) (c : Command) : DrawingState :=
  match c with
  | CreateStroke u tl col w i now => snd (createStroke st u tl col w i now)
  | AppendPoints sid pts lim => snd (appendPoints st sid pts lim)
  | CompleteStroke sid => snd (completeStroke st sid)
  | UndoStroke u tgt i now => snd (undoStroke st u tgt i now)
  | RedoStroke u tgt i now => snd (redoStroke st u tgt i now)
  end.

Definition run (st : DrawingState) (cs : list Command) : DrawingState :=
  fold_left step cs st.

(** The identifier [uuidv4()] returns during the call, if it is reached. *)
Definition generated (c : Command) : option string :=
  match c with
  | CreateStroke _ _ _ _ i _ => Some i
  | UndoStroke _ _ i _ => Some i
  | RedoStroke _ _ i _ => Some i
  | _ => None
  end.



(** Every identifier that occurs in an operation. *)
Definition op_ids (op : Operation) : list string :=
  match op with
  | OpStroke sid _ _ => [sid]
  | OpUndo tgt _ _ i => [i; tgt]
  | OpRedo tgt _ _ i => [i; tgt]
  end.

Definition ids_of_state (st : DrawingState) : list string :=
  map fst (strokes st) ++ flat_map op_ids (operations st).

Definition mem_string (i : string) (l : list string) : bool :=
  existsb (String.eqb i) l.

(** [uuidv4()] returned an identifier that occurs nowhere in the state. *)
Definition fresh (st : DrawingState) (c : Command) : bool :=
  match generated c with
  | Some i => negb (mem_string i (ids_of_state st))
  | None => true
  end.

Fixpoint fresh_run (st : DrawingState) (cs : list Command) : bool :=
  match cs with
  | [] => true
  | c :: rest => fresh st c && fresh_run (step st c) rest
  end.

Definition reachable (st : DrawingState) : Prop :=
  exists cs, fresh_run emptyState cs = true /\ run emptyState cs = st.

(** ** Counting view of the visibility loop *)

Definition undo_targets (sid : string) (op : Operation) : bool :=
  match op with
  | OpUndo tgt _ _ _ => String.eqb tgt sid
  | _ => false
  end.

(** The stroke targeted by the undo operation that [find] returns for [i]. *)
Definition undoTarget (ops : list Operation) (i : string) : option string :=
  match find (is_undo_with_id i) ops with
  | Some (OpUndo tgt _ _ _) => Some tgt
  | _ => None
  end.

Definition redo_counts (all : list Operation) (sid : string) (op : Operation)
  : bool :=
  match op with
  | OpRedo tgtUndo _ _ _ =>
      match undoTarget all tgtUndo with
      | Some tgt => String.eqb tgt sid
      | None => false
      end
  | _ => false
  end.

Definition count {A : Type} (p : A -> bool) (l : list A) : nat :=
  List.length (filter p l).

(** ** The specification's counters

    These two follow the words of the specification: [undoCount] counts the
    undo operations targeting the stroke, [redoCount] counts the redo
    operations for which some undo operation of the log bears the redo's
    target id and targets the stroke. *)

Definition undoCount (ops : list Operation) (sid : string) : nat :=
  count (undo_targets sid) ops.

Definition undo_named_targets (i sid : string) (op : Operation) : bool :=
  match op with
  | OpUndo tgt _ _ i' => String.eqb i' i && String.eqb tgt sid
  | _ => false
  end.

Definition redoCount (ops : list Operation) (sid : string) : nat :=
  count (fun op =>
           match op with
           | OpRedo tgtUndo _ _ _ => existsb (undo_named_targets tgtUndo sid) ops
           | _ => false
           end) ops.

Fixpoint undoIds (ops : list Operation) : list string :=
  match ops with
  | [] => []
  | OpUndo _ _ _ i :: rest => i :: undoIds rest
  | _ :: rest => undoIds rest
  end.

Fixpoint redoTargets (ops : list Operation) : list string :=
  match ops with
  | [] => []
  | OpRedo tgt _ _ _ :: rest => tgt :: redoTargets rest
  | _ :: rest => redoTargets rest
  end.

(** ** A sample session

    Two authors each create a stroke, the first stroke receives a point and
    both are completed; then author [a1] undoes the stroke of author [a2]
    (scenarios A and B of the specification). *)

Definition sample_cmds : list Command :=
  [ CreateStroke "a1" brush "#000000" 4 "s1" 1;
    CreateStroke "a2" eraser "#ff0000" 2 "s2" 2;
    AppendPoints "s1" [mkPoint 1 1 10] 1000;
    CompleteStroke "s1";
    CompleteStroke "s2";
    UndoStroke "a1" "s2" "u1" 3 ].

Definition sample_state : DrawingState := run emptyState sample_cmds.

(** ** Growth of a state

    [grows st st'] : the log of [st] is a prefix of the log of [st'], and
    every stroke of [st] is still in [st'] under its key, with the same
    identity and author and a point sequence that has the old one as a
    prefix. *)

Definition grows (st st' : DrawingState) : Prop :=
  (exists ext, operations st' = operations st ++ ext) /\
  (forall k s, map_get k (strokes st) = Some s ->
     exists s' more,
       map_get k (strokes st') = Some s' /\
       points s' = points s ++ more /\
       id s' = id s /\ userId s' = userId s).

Fixpoint all_accepted (st : DrawingState) (cs : list Command) : bool :=
  match cs with
  | [] => true
  | c :: rest => accepted st c && all_accepted (step st c) rest
  end.

(** ** Invariants of reachable states *)

Record wf_state (st : DrawingState) : Prop := mk_wf {
  (* the keys of the store, in insertion order, are the stroke operations
     of the log, in log order *)
  wf_keys : map fst (strokes st) = strokeOrder (operations st);
  wf_keys_nodup : NoDup (strokeOrder (operations st));
  (* a stroke is stored under its own id *)
  wf_key_id : forall k s, In (k, s) (strokes st) -> id s = k;
  wf_undo_nodup : NoDup (undoIds (operations st));
  (* at most one redo per undo, and only of undos of the log *)
  wf_redo_nodup : NoDup (redoTargets (operations st));
  wf_redo_resolved :
    incl (redoTargets (operations st)) (undoIds (operations st));
  (* the guard of [undoStroke]: never two unmatched undos on one stroke *)
  wf_balance : forall sid,
    count (undo_targets sid) (operations st)
    <= S (count (redo_counts (operations st) sid) (operations st))
}.

(** What [getLastVisibleStrokeByUser] looks for: an entry of the store that
    is visible, completed and authored by [user]. *)
Definition undo_candidate (st : DrawingState) (user : string)
    (kv : string * Stroke) : bool :=
  isStrokeVisible st (fst kv)
  && (String.eqb (userId (snd kv)) user && complete (snd kv)).

(** ** Vocabulary for the interleaving of two calls *)

(** The operation a call pushes when it is accepted. *)
Definition op_of (c : Command) : list Operation :=
  match c with
  | CreateStroke u _ _ _ i now => [OpStroke i now u]
  | UndoStroke u tgt i now => [OpUndo tgt now u i]
  | RedoStroke u tgt i now => [OpRedo tgt now u i]
  | _ => []
  end.

Definition effect_if (p : bool) (c : Command) : list Operation :=
  if p then op_of c else [].

Definition present (st : DrawingState) (k : string) : bool :=
  match map_get k (strokes st) with Some _ => true | None => false end.




(** The state in which author [a1] has undone the own stroke [s1]. *)
Definition hidden_state : DrawingState :=
  run emptyState
      [ CreateStroke "a1" brush "#000000" 4 "s1" 1;
        UndoStroke "a1" "s1" "u1" 2 ].

(** The state in which [a1] has then redone that undo. *)
Definition shown_again_state : DrawingState :=
  run hidden_state [ RedoStroke "a1" "u1" "r1" 3 ].

(** The state in which [a2] has then undone [s1] once more. *)
Definition hidden_again_state : DrawingState :=
  run shown_again_state [ UndoStroke "a2" "s1" "u2" 4 ].

(** ** The remaining read methods of [DrawingState] *)

(** The filter predicate of [getLastUndoByUser]: an undo operation of the
    user for which [operations.find] returns no redo naming its id. *)
Definition is_open_undo_of (ops : list Operation) (user : string)
    (op : Operation) : bool :=
  match op with
  | OpUndo _ _ u i =>
      if negb (String.eqb u user) then false
      else match find (is_redo_of i) ops with
           | Some _ => false
           | None => true
           end
  | _ => false
  end.

(** [(op as any).id]: a stroke operation has no such field. *)
Definition op_id (op : Operation) : option string :=
  match op with
  | OpStroke _ _ _ => None
  | OpUndo _ _ _ i => Some i
  | OpRedo _ _ _ i => Some i
  end.

Definition getLastUndoByUser (st : DrawingState) (user : string)
  : option string :=
  let undoOps := filter (is_open_undo_of (operations st) user) (operations st) in
  match last_opt undoOps with
  | Some op => op_id op
  | None => None
  end.

(** [getFullState]: [Array.from(strokes.values())] and a copy of the log. *)
Definition getFullState (st : DrawingState) : list Stroke * list Operation :=
  (map snd (strokes st), operations st).

(** The strokes named by the undo operations of a log. *)
Fixpoint undoTargetsOf (ops : list Operation) : list string :=
  match ops with
  | [] => []
  | OpUndo tgt _ _ _ :: rest => tgt :: undoTargetsOf rest
  | _ :: rest => undoTargetsOf rest
  end.

(** * Rooms and users ([server/rooms.ts]) *)

(** A [Map<string, V>] for the other stores of the server: insertion
    ordered, keys unique. *)
Section StringMap.
Context {V : Type}.

Fixpoint smap_get (k : string) (m : list (string * V)) : option V :=
  match m with
  | [] => None
  | (k', v) :: rest => if String.eqb k' k then Some v else smap_get k rest
  end.

Fixpoint smap_set (k : string) (v : V) (m : list (string * V))
  : list (string * V) :=
  match m with
  | [] => [(k, v)]
  | (k', v') :: rest =>
      if String.eqb k' k then (k', v) :: rest else (k', v') :: smap_set k v rest
  end.

(** [Map.prototype.delete]: the entry of the key goes, the others keep their
    order. *)
Definition smap_delete (k : string) (m : list (string * V))
  : list (string * V) :=
  filter (fun kv => negb (String.eqb (fst kv) k)) m.
End StringMap.

Module Rooms.

Record Cursor : Type := mkCursor { x : float; y : float }.

Record User : Type := mkUser {
  id : string;
  socketId : string;
  name : string;
  color : string;
  cursor : option Cursor;
  joinedAt : Z
}.

Definition USER_COLORS : list string :=
  [ "#FF6B6B"; "#4ECDC4"; "#45B7D1"; "#96CEB4";
    "#FFEAA7"; "#DDA0DD"; "#98D8C8"; "#F7DC6F";
    "#BB8FCE"; "#85C1E9"; "#F8B500"; "#00CED1" ].

(** The class [Room]; its [id] field is [room_id] here, the name [id] being
    taken by [User]. *)
Record Room : Type := mkRoom {
  room_id : string;
  users : list (string * User);
  colorIndex : nat
}.

(** [new Room(id)] *)
Definition newRoom (rid : string) : Room := mkRoom rid [] 0.

(** [`${n}`] for a non-negative integer. *)
Definition decimal (n : nat) : string :=
  NilEmpty.string_of_uint (Nat.to_uint n).

(** [userName || `User ${this.users.size + 1}`]: the empty string is falsy.
    [socketId.substring(0, 8)] keeps the first eight UTF-16 code units; with
    one character per code unit (socket ids are ASCII, see the modelling
    conventions) that is [String.substring 0 8]. *)
Definition addUser (r : Room) (sock userName : string) (now : Z)
  : User * Room :=
  let userId := ("user_" ++ String.substring 0 8 sock)%string in
  let col := nth (colorIndex r mod List.length USER_COLORS) USER_COLORS "" in
  let user :=
    mkUser userId sock
           (if String.eqb userName "" then
              ("User " ++ decimal (List.length (users r) + 1))%string
            else userName)
           col None now in
  (user, mkRoom (room_id r) (smap_set sock user (users r)) (S (colorIndex r))).

Definition removeUser (r : Room) (sock : string) : option User * Room :=
  match smap_get sock (users r) with
  | Some user =>
      (Some user, mkRoom (room_id r) (smap_delete sock (users r)) (colorIndex r))
  | None => (None, r)
  end.

Definition updateCursor (r : Room) (sock : string) (cx cy : float) : Room :=
  match smap_get sock (users r) with
  | Some user =>
      let user' :=
        mkUser (id user) (socketId user) (name user) (color user)
               (Some (mkCursor cx cy)) (joinedAt user) in
      mkRoom (room_id r) (smap_set sock user' (users r)) (colorIndex r)
  | None => r
  end.

Definition getUser (r : Room) (sock : string) : option User :=
  smap_get sock (users r).

Definition getAllUsers (r : Room) : list User := map snd (users r).

Definition userCount (r : Room) : nat := List.length (users r).

Definition isEmpty (r : Room) : bool := Nat.eqb (List.length (users r)) 0.

(** The class [RoomManager]: its one field, the map of rooms. *)
Definition RoomManager : Type := list (string * Room).

Definition DEFAULT_ROOM : string := "main".

(** [getOrCreateRoom(roomId = DEFAULT_ROOM)]: a missing argument is
    [None]. *)
Definition getOrCreateRoom (m : RoomManager) (roomId : option string)
  : Room * RoomManager :=
  let rid := match roomId with Some r => r | None => DEFAULT_ROOM end in
  match smap_get rid m with
  | Some room => (room, m)
  | None => let room := newRoom rid in (room, smap_set rid room m)
  end.

Definition getRoom (m : RoomManager) (roomId : string) : option Room :=
  smap_get roomId m.

Definition removeRoomIfEmpty (m : RoomManager) (roomId : string)
  : bool * RoomManager :=
  match smap_get roomId m with
  | Some room =>
      if isEmpty room then (true, smap_delete roomId m) else (false, m)
  | None => (false, m)
  end.

Definition getAllRooms (m : RoomManager) : list Room := map snd m.

(** A sequence of joins: [addUser] for each (socket id, name, time), in
    order; the users it returned and the room it left. *)
Fixpoint addUsers (r : Room) (joins : list (string * string * Z))
  : list User * Room :=
  match joins with
  | [] => ([], r)
  | (sock, userName, now) :: rest =>
      let '(u, r1) := addUser r sock userName now in
      let '(us, r2) := addUsers r1 rest in
      (u :: us, r2)
  end.

End Rooms.

(** * Undo, redo and clear over the wire ([server/socketHandlers.ts]) *)

(** [roomStates]: the drawing state of each room id. *)
Definition RoomStates : Type := list (string * DrawingState).

Definition getOrCreateState (rs : RoomStates) (roomId : string)
  : DrawingState * RoomStates :=
  match smap_get roomId rs with
  | Some state => (state, rs)
  | None => (emptyState, smap_set roomId emptyState rs)
  end.

(** The variables a connection's handlers close over. Of [currentRoom] the
    handlers below read only the immutable [id], of [currentUser] only
    [id]. *)
Record Conn : Type := mkConn {
  currentRoom : option Rooms.Room;
  currentUser : option Rooms.User;
  activeStrokeId : option string
}.

(** What [io.to(room).emit(...)] sends: the room, the event and its
    payload. *)
Inductive Emit : Type :=
| EmitUndo (room : string) (userId targetStrokeId undoOpId : string)
           (visibleStrokes : list Stroke)
| EmitRedo (room : string) (userId targetUndoOpId : string)
           (visibleStrokes : list Stroke)
| EmitCanvasCleared (room : string) (userId : string)
                    (visibleStrokes : list Stroke).

(** [a || b] on values that are a string, [undefined] or [null]: the empty
    string is falsy. *)
Definition or_else (a b : option string) : option string :=
  match a with
  | Some s => if String.eqb s "" then b else Some s
  | None => b
  end.

(** The [UNDO] handler; [targetStrokeId] is the optional field of the
    payload. *)
Definition onUndo (c : Conn) (rs : RoomStates) (targetStrokeId : option string)
    (newId : string) (now : Z) : RoomStates * list Emit :=
  match currentRoom c, currentUser c with
  | Some room, Some user =>
      let '(state, rs1) := getOrCreateState rs (Rooms.room_id room) in
      match or_else targetStrokeId
                    (getLastVisibleStrokeByUser state (Rooms.id user)) with
      | None => (rs1, [])
      | Some targetId =>
          if String.eqb targetId "" then (rs1, [])
          else
            let '(undoOpId, state') :=
              undoStroke state (Rooms.id user) targetId newId now in
            let rs2 := smap_set (Rooms.room_id room) state' rs1 in
            match undoOpId with
            | None => (rs2, [])
            | Some opId =>
                if String.eqb opId "" then (rs2, [])
                else (rs2, [EmitUndo (Rooms.room_id room) (Rooms.id user)
                                     targetId opId (getVisibleStrokes state')])
            end
      end
  | _, _ => (rs, [])
  end.

(** The [REDO] handler. *)
Definition onRedo (c : Conn) (rs : RoomStates) (targetUndoOpId : option string)
    (newId : string) (now : Z) : RoomStates * list Emit :=
  match currentRoom c, currentUser c with
  | Some room, Some user =>
      let '(state, rs1) := getOrCreateState rs (Rooms.room_id room) in
      match or_else targetUndoOpId
                    (getLastUndoByUser state (Rooms.id user)) with
      | None => (rs1, [])
      | Some targetUndoId =>
          if String.eqb targetUndoId "" then (rs1, [])
          else
            let '(success, state') :=
              redoStroke state (Rooms.id user) targetUndoId newId now in
            let rs2 := smap_set (Rooms.room_id room) state' rs1 in
            if success then
              (rs2, [EmitRedo (Rooms.room_id room) (Rooms.id user)
                              targetUndoId (getVisibleStrokes state')])
            else (rs2, [])
      end
  | _, _ => (rs, [])
  end.

(** The loop of the [CLEAR_CANVAS] handler. [gen n] is what the [n]-th pair
    of calls [uuidv4()], [Date.now()] returns; a rejected [undoStroke] makes
    no such calls. *)
Fixpoint undoEach (st : DrawingState) (user : string) (targets : list Stroke)
    (gen : nat -> string * Z) (n : nat) : DrawingState * nat :=
  match targets with
  | [] => (st, n)
  | stroke :: rest =>
      match undoStroke st user (id stroke) (fst (gen n)) (snd (gen n)) with
      | (Some _, st') => undoEach st' user rest gen (S n)
      | (None, st') => undoEach st' user rest gen n
      end
  end.

(** The [CLEAR_CANVAS] handler. *)
Definition onClearCanvas (c : Conn) (rs : RoomStates)
    (gen : nat -> string * Z) : RoomStates * list Emit :=
  match currentRoom c, currentUser c with
  | Some room, Some user =>
      let '(state, rs1) := getOrCreateState rs (Rooms.room_id room) in
      let visibleStrokes := getVisibleStrokes state in
      let '(state', _) := undoEach state (Rooms.id user) visibleStrokes gen 0 in
      let rs2 := smap_set (Rooms.room_id room) state' rs1 in
      (rs2, [EmitCanvasCleared (Rooms.room_id room) (Rooms.id user)
                               (getVisibleStrokes state')])
  | _, _ => (rs, [])
  end.

(** A connection that has joined [room] as [user]. *)
Definition joined (room : Rooms.Room) (user : Rooms.User) : Conn :=
  mkConn (Some room) (Some user) None.

(** A sample source of identifiers: "g", "g|", "g||", ... *)
Fixpoint bars (n : nat) : string :=
  match n with
  | 0 => ""
  | S m => String "|"%char (bars m)
  end.

Definition sample_gen (j : nat) : string * Z :=
  (String "g"%char (bars j), Z.of_nat j).

(** [appendPoints] as seen on one stroke. *)
Definition extend_if (k : string) (pts : list Point) (s : Stroke) : Stroke :=
  if String.eqb (id s) k then
    mkStroke (id s) (userId s) (tool s) (color s) (width s) (points s ++ pts)
             (complete s)
  else s.

(** ** Basic facts *)

Lemma count_app {A} (p : A -> bool) (l1 l2 : list A) :
  count p (l1 ++ l2) = count p l1 + count p l2.
Proof. unfold count. now rewrite filter_app, length_app. Qed.

Lemma count_ext_in {A} (p q : A -> bool) (l : list A) :
  (forall a, In a l -> p a = q a) -> count p l = count q l.
Proof.
  intros H. unfold count. f_equal. now apply filter_ext_in.
Qed.

Lemma visible_step_counts all sid op u r :
  visible_step all sid (u, r) op =
  (u + (if undo_targets sid op then 1 else 0),
   r + (if redo_counts all sid op then 1 else 0)).
Proof.
  destruct op as [s ts us | tgt ts us i | tgt ts us i]; simpl.
  - f_equal; lia.
  - destruct (String.eqb tgt sid); f_equal; lia.
  - unfold undoTarget.
    destruct (find (is_undo_with_id tgt) all) as [[s ts' us' | tgt' ts' us' i' | tgt' ts' us' i'] |];
      try (f_equal; lia).
    destruct (String.eqb tgt' sid); f_equal; lia.
Qed.

Lemma fold_visible_step all sid l : forall u r,
  fold_left (visible_step all sid) l (u, r) =
  (u + count (undo_targets sid) l, r + count (redo_counts all sid) l).
Proof.
  induction l as [| op l IH]; intros u r.
  - unfold count; simpl. f_equal; lia.
  - cbn [fold_left]. rewrite visible_step_counts, IH.
    unfold count; simpl.
    destruct (undo_targets sid op), (redo_counts all sid op); simpl; f_equal; lia.
Qed.

Lemma visible_counts_eq ops sid :
  visible_counts ops sid =
  (count (undo_targets sid) ops, count (redo_counts ops sid) ops).
Proof. unfold visible_counts. now rewrite fold_visible_step. Qed.

Lemma isStrokeVisible_counts st sid :
  isStrokeVisible st sid =
  (count (undo_targets sid) (operations st)
   <=? count (redo_counts (operations st) sid) (operations st))%nat.
Proof. unfold isStrokeVisible. now rewrite visible_counts_eq. Qed.

Lemma find_undo_is_undo i ops op :
  find (is_undo_with_id i) ops = Some op ->
  exists tgt ts us, op = OpUndo tgt ts us i /\ In op ops.
Proof.
  intros H. destruct (find_some _ _ H) as [Hin Hp].
  destruct op as [s ts us | tgt ts us i' | tgt ts us i']; simpl in Hp; try discriminate.
  apply String.eqb_eq in Hp. subst i'. now exists tgt, ts, us.
Qed.

Lemma In_undoIds ops tgt ts us i :
  In (OpUndo tgt ts us i) ops -> In i (undoIds ops).
Proof.
  induction ops as [| op ops IH]; simpl; [easy |].
  intros [-> | Hin]; [now left |].
  destruct op; simpl; auto.
Qed.

Lemma undoIds_In ops i :
  In i (undoIds ops) -> exists tgt ts us, In (OpUndo tgt ts us i) ops.
Proof.
  induction ops as [| op ops IH]; simpl; [easy |].
  destruct op as [s ts us | tgt ts us i' | tgt ts us i']; simpl.
  - intros H. destruct (IH H) as (a & b & c & Hin). eauto 6.
  - intros [-> | H]; [eauto 6 |]. destruct (IH H) as (a & b & c & Hin). eauto 6.
  - intros H. destruct (IH H) as (a & b & c & Hin). eauto 6.
Qed.

Lemma existsb_undo_named_not_in i sid ops :
  ~ In i (undoIds ops) -> existsb (undo_named_targets i sid) ops = false.
Proof.
  intros Hn. apply not_true_is_false. intros H.
  apply existsb_exists in H. destruct H as (op & Hin & Hp).
  destruct op as [s ts us | tgt ts us i' | tgt ts us i']; simpl in Hp; try discriminate.
  apply andb_true_iff in Hp. destruct Hp as [Hi _].
  apply String.eqb_eq in Hi. subst i'.
  apply Hn. eapply In_undoIds; eauto.
Qed.

(** With distinct undo ids, "some undo named [i] targets [sid]" is what the
    [find] of the code computes. *)
Lemma undo_named_find ops : NoDup (undoIds ops) -> forall i sid,
  existsb (undo_named_targets i sid) ops =
  match undoTarget ops i with
  | Some tgt => String.eqb tgt sid
  | None => false
  end.
Proof.
  unfold undoTarget.
  induction ops as [| op ops IH]; intros Hnd i sid; [reflexivity |].
  destruct op as [s ts us | tgt ts us i' | tgt ts us i']; simpl in *; auto.
  inversion Hnd as [| ? ? Hnotin Hnd']; subst.
  destruct (String.eqb_spec i' i) as [-> | Hne]; simpl.
  - rewrite existsb_undo_named_not_in by assumption. apply orb_false_r.
  - now apply IH.
Qed.

Lemma find_undo_none_iff ops i :
  find (is_undo_with_id i) ops = None <-> ~ In i (undoIds ops).
Proof.
  induction ops as [| op ops IH]; simpl; [tauto |].
  destruct op as [s ts us | tgt ts us i' | tgt ts us i']; simpl; try exact IH.
  destruct (String.eqb_spec i' i) as [-> | Hne].
  - split; [discriminate | intros H; exfalso; apply H; now left].
  - rewrite IH. tauto.
Qed.

Lemma existsb_redo_iff ops i :
  existsb (is_redo_of i) ops = true <-> In i (redoTargets ops).
Proof.
  induction ops as [| op ops IH]; simpl; [split; [discriminate | tauto] |].
  destruct op as [s ts us | tgt ts us i' | tgt ts us i']; simpl; try exact IH.
  destruct (String.eqb_spec tgt i) as [-> | Hne]; simpl.
  - split; auto.
  - rewrite IH. split; auto. intros [H | H]; [congruence | assumption].
Qed.

Lemma map_get_set_same k v m : map_get k (map_set k v m) = Some v.
Proof.
  induction m as [| [k' v'] m IH]; simpl.
  - now rewrite String.eqb_refl.
  - destruct (String.eqb k' k) eqn:E; simpl; rewrite E; auto.
Qed.

Lemma map_get_set_other k k' v m :
  k' <> k -> map_get k' (map_set k v m) = map_get k' m.
Proof.
  intros Hne. induction m as [| [k0 v0] m IH]; simpl.
  - destruct (String.eqb_spec k k'); congruence.
  - destruct (String.eqb_spec k0 k) as [-> | Hk]; simpl.
    + destruct (String.eqb_spec k k'); congruence.
    + now rewrite IH.
Qed.

Lemma map_set_keys_present k v v0 m :
  map_get k m = Some v0 -> map fst (map_set k v m) = map fst m.
Proof.
  induction m as [| [k' v'] m IH]; simpl; [discriminate |].
  destruct (String.eqb k' k) eqn:E; simpl; [reflexivity |].
  intros H. now rewrite IH.
Qed.

Lemma map_get_none_iff k m : map_get k m = None <-> ~ In k (map fst m).
Proof.
  induction m as [| [k' v'] m IH]; simpl; [tauto |].
  destruct (String.eqb_spec k' k) as [-> | Hne].
  - split; [discriminate | intros H; exfalso; apply H; now left].
  - rewrite IH. tauto.
Qed.

Lemma map_set_keys_absent k v m :
  map_get k m = None -> map fst (map_set k v m) = map fst m ++ [k].
Proof.
  induction m as [| [k' v'] m IH]; simpl; [reflexivity |].
  destruct (String.eqb k' k) eqn:E; simpl; [discriminate |].
  intros H. now rewrite IH.
Qed.

(** ** The log only grows *)

Lemma step_operations st c :
  exists ext, operations (step st c) = operations st ++ ext.
Proof.
  destruct c as [u tl col w i now | sid pts lim | sid | u tgt i now | u tgt i now]; simpl.
  - eauto.
  - unfold appendPoints.
    destruct (map_get sid (strokes st));
      [destruct (List.length pts <=? lim)%nat |]; simpl;
      exists []; now rewrite app_nil_r.
  - unfold completeStroke. destruct (map_get sid (strokes st)); simpl;
      exists []; now rewrite app_nil_r.
  - unfold undoStroke. destruct (map_get tgt (strokes st)); simpl.
    + destruct (negb (isStrokeVisible st tgt)); simpl; eauto.
      exists []; now rewrite app_nil_r.
    + exists []; now rewrite app_nil_r.
  - unfold redoStroke. destruct (find (is_undo_with_id tgt) (operations st)); simpl.
    + destruct (existsb (is_redo_of tgt) (operations st)); simpl; eauto.
      exists []; now rewrite app_nil_r.
    + exists []; now rewrite app_nil_r.
Qed.

Lemma run_operations cs : forall st,
  exists ext, operations (run st cs) = operations st ++ ext.
Proof.
  unfold run. induction cs as [| c cs IH]; intros st; simpl.
  - exists []; now rewrite app_nil_r.
  - destruct (IH (step st c)) as [e2 H2].
    destruct (step_operations st c) as [e1 H1].
    exists (e1 ++ e2). now rewrite H2, H1, app_assoc.
Qed.

(** ** C1: visibility is the comparison of the two counters *)

(** C1. In every log whose undo operations bear distinct ids,
    [isStrokeVisible] returns [true] exactly when the number of undo
    operations targeting the stroke is at most the number of redo operations
    whose target undo operation targets the stroke. *)
Theorem isStrokeVisible_iff_counts (st : DrawingState) (sid : string) :
  NoDup (undoIds (operations st)) ->
  (isStrokeVisible st sid = true <->
   undoCount (operations st) sid <= redoCount (operations st) sid).
Proof.
  intros Hnd. rewrite isStrokeVisible_counts, Nat.leb_le.
  unfold undoCount, redoCount.
  rewrite (count_ext_in
             (fun op => match op with
                        | OpRedo tgtUndo _ _ _ =>
                            existsb (undo_named_targets tgtUndo sid) (operations st)
                        | _ => false
                        end)
             (redo_counts (operations st) sid)).
  - reflexivity.
  - intros [s ts us | tgt ts us i | tgt ts us i] _; simpl; auto.
    now apply undo_named_find.
Qed.

Lemma isStrokeVisible_iff_counts_witness :
  NoDup (undoIds (operations sample_state)) /\
  (isStrokeVisible sample_state "s2" = true <->
   undoCount (operations sample_state) "s2"
   <= redoCount (operations sample_state) "s2").
Proof.
  assert (H : NoDup (undoIds (operations sample_state))).
  { vm_compute. repeat constructor. simpl. tauto. }
  split; [exact H | exact (isStrokeVisible_iff_counts sample_state "s2" H)].
Defined.

(** ** C3: [undoStroke] *)

(** C3. [undoStroke] is rejected exactly when the target is not a key of the
    stroke store or the stroke is not visible; otherwise it returns the new
    undo id and appends exactly one undo operation with that id, targeting
    that stroke. The outcome does not depend on the caller: no comparison
    with the stroke's author is made. *)
Theorem undoStroke_spec (st : DrawingState) (user tgt newId : string) (now : Z) :
  (fst (undoStroke st user tgt newId now) = None <->
   map_get tgt (strokes st) = None \/ isStrokeVisible st tgt = false) /\
  (fst (undoStroke st user tgt newId now) <> None ->
   undoStroke st user tgt newId now =
   (Some newId,
    mkState (strokes st) (operations st ++ [OpUndo tgt now user newId]))) /\
  (forall user', fst (undoStroke st user' tgt newId now)
                 = fst (undoStroke st user tgt newId now)).
Proof.
  unfold undoStroke.
  destruct (map_get tgt (strokes st)) as [s |]; simpl.
  - destruct (isStrokeVisible st tgt); simpl.
    + repeat split; try congruence. intros [H | H]; discriminate.
    + repeat split; auto. congruence.
  - repeat split; auto. congruence.
Qed.

Lemma undoStroke_spec_witness :
  fst (undoStroke (run emptyState (firstn 5 sample_cmds)) "a1" "s2" "u1" 3)
  <> None /\
  undoStroke (run emptyState (firstn 5 sample_cmds)) "a1" "s2" "u1" 3 =
  (Some "u1", sample_state).
Proof.
  assert (H : fst (undoStroke (run emptyState (firstn 5 sample_cmds))
                              "a1" "s2" "u1" 3) <> None)
    by (vm_compute; discriminate).
  split; [exact H |].
  rewrite (proj1 (proj2 (undoStroke_spec
                           (run emptyState (firstn 5 sample_cmds))
                           "a1" "s2" "u1" 3)) H).
  reflexivity.
Defined.

(** ** C4: [redoStroke] *)

Lemma redoStroke_rejected_iff st user tgt newId now :
  fst (redoStroke st user tgt newId now) = false <->
  ~ In tgt (undoIds (operations st)) \/ In tgt (redoTargets (operations st)).
Proof.
  unfold redoStroke.
  destruct (find (is_undo_with_id tgt) (operations st)) as [op |] eqn:Ef.
  - assert (Hin : In tgt (undoIds (operations st))).
    { destruct (in_dec string_dec tgt (undoIds (operations st))) as [H | H]; auto.
      apply find_undo_none_iff in H. congruence. }
    destruct (existsb (is_redo_of tgt) (operations st)) eqn:Ee; simpl.
    + apply existsb_redo_iff in Ee. tauto.
    + split; [discriminate |]. intros [H | H]; [tauto |].
      apply existsb_redo_iff in H. congruence.
  - simpl. apply find_undo_none_iff in Ef. tauto.
Qed.

Lemma redo_rejected_later st cs tgt :
  In tgt (redoTargets (operations st)) ->
  forall user newId now,
    redoStroke (run st cs) user tgt newId now = (false, run st cs).
Proof.
  intros Hin user newId now.
  destruct (run_operations cs st) as [ext Hext].
  unfold redoStroke.
  destruct (find (is_undo_with_id tgt) (operations (run st cs))); auto.
  assert (He : existsb (is_redo_of tgt) (operations (run st cs)) = true).
  { rewrite Hext, existsb_app. apply existsb_redo_iff in Hin. now rewrite Hin. }
  now rewrite He.
Qed.

Lemma redoTargets_app l1 l2 :
  redoTargets (l1 ++ l2) = redoTargets l1 ++ redoTargets l2.
Proof.
  induction l1 as [| op l1 IH]; simpl; auto.
  destruct op; simpl; now rewrite ?IH.
Qed.

Lemma undoIds_app l1 l2 : undoIds (l1 ++ l2) = undoIds l1 ++ undoIds l2.
Proof.
  induction l1 as [| op l1 IH]; simpl; auto.
  destruct op; simpl; now rewrite ?IH.
Qed.

(** C4. [redoStroke] is rejected exactly when its target is not the id of an
    undo operation of the log or some redo operation of the log already
    references that id; otherwise it appends exactly one redo operation.
    After an accepted redo, every later [redoStroke] against the same undo id
    (whatever happened in between) is rejected and leaves the state, hence
    every stroke's visibility, as it was. *)
Theorem redoStroke_spec (st : DrawingState) (user tgt newId : string) (now : Z) :
  (fst (redoStroke st user tgt newId now) = false <->
   ~ In tgt (undoIds (operations st)) \/ In tgt (redoTargets (operations st))) /\
  (fst (redoStroke st user tgt newId now) = true ->
   redoStroke st user tgt newId now =
   (true, mkState (strokes st) (operations st ++ [OpRedo tgt now user newId])) /\
   forall cs user' newId' now',
     let st2 := run (snd (redoStroke st user tgt newId now)) cs in
     redoStroke st2 user' tgt newId' now' = (false, st2) /\
     forall sid, isStrokeVisible (snd (redoStroke st2 user' tgt newId' now')) sid
                 = isStrokeVisible st2 sid).
Proof.
  split; [apply redoStroke_rejected_iff |].
  intros Hacc.
  assert (Heq : redoStroke st user tgt newId now =
                (true, mkState (strokes st)
                               (operations st ++ [OpRedo tgt now user newId]))).
  { revert Hacc. unfold redoStroke.
    destruct (find (is_undo_with_id tgt) (operations st)); simpl; [| discriminate].
    destruct (existsb (is_redo_of tgt) (operations st)); simpl; [discriminate | auto]. }
  split; [exact Heq |].
  intros cs user' newId' now' st2.
  assert (Hrej : redoStroke st2 user' tgt newId' now' = (false, st2)).
  { subst st2. apply redo_rejected_later.
    rewrite Heq. simpl. rewrite redoTargets_app. apply in_or_app. right. now left. }
  split; [exact Hrej |]. intros sid. now rewrite Hrej.
Qed.

Lemma redoStroke_spec_witness :
  fst (redoStroke sample_state "a2" "u1" "r1" 4) = true /\
  redoStroke (run (snd (redoStroke sample_state "a2" "u1" "r1" 4))
                  [CreateStroke "a1" brush "#000000" 4 "s3" 5])
             "a1" "u1" "r2" 6
  = (false, run (snd (redoStroke sample_state "a2" "u1" "r1" 4))
                [CreateStroke "a1" brush "#000000" 4 "s3" 5]).
Proof.
  assert (H : fst (redoStroke sample_state "a2" "u1" "r1" 4) = true)
    by reflexivity.
  split; [exact H |].
  exact (proj1 (proj2 (proj2 (redoStroke_spec sample_state "a2" "u1" "r1" 4) H)
                      [CreateStroke "a1" brush "#000000" 4 "s3" 5]
                      "a1" "r2" 6%Z)).
Defined.

(** ** C5: rejections leave the state alone *)

(** C5. Whenever [appendPoints], [completeStroke], [undoStroke] or
    [redoStroke] reports failure, the state it returns (stroke store and
    operation log) is the state it was given. For [appendPoints] this
    covers every call that does not return [true]: the one that returns
    [false] and the one that throws. *)
Theorem rejections_are_pure (st : DrawingState) :
  (forall sid pts maxArgs,
      fst (appendPoints st sid pts maxArgs) <> Returned true ->
      snd (appendPoints st sid pts maxArgs) = st) /\
  (forall sid,
      fst (completeStroke st sid) = false -> snd (completeStroke st sid) = st) /\
  (forall user tgt newId now,
      fst (undoStroke st user tgt newId now) = None ->
      snd (undoStroke st user tgt newId now) = st) /\
  (forall user tgt newId now,
      fst (redoStroke st user tgt newId now) = false ->
      snd (redoStroke st user tgt newId now) = st).
Proof.
  repeat split.
  - intros sid pts maxArgs. unfold appendPoints.
    destruct (map_get sid (strokes st)); simpl; [| auto].
    destruct (List.length pts <=? maxArgs)%nat; simpl; [congruence | auto].
  - intros sid. unfold completeStroke.
    destruct (map_get sid (strokes st)); simpl; [discriminate | auto].
  - intros user tgt newId now. unfold undoStroke.
    destruct (map_get tgt (strokes st)); simpl; auto.
    destruct (negb (isStrokeVisible st tgt)); simpl; [auto | discriminate].
  - intros user tgt newId now. unfold redoStroke.
    destruct (find (is_undo_with_id tgt) (operations st)); simpl; auto.
    destruct (existsb (is_redo_of tgt) (operations st)); simpl; [auto | discriminate].
Qed.

Lemma rejections_are_pure_witness :
  fst (appendPoints sample_state "nowhere" [mkPoint 1 2 3] 1000) = Returned false /\
  snd (appendPoints sample_state "nowhere" [mkPoint 1 2 3] 1000) = sample_state /\
  fst (appendPoints sample_state "s1" [mkPoint 1 2 3; mkPoint 4 5 6] 1)
  = ThrownRangeError /\
  snd (appendPoints sample_state "s1" [mkPoint 1 2 3; mkPoint 4 5 6] 1)
  = sample_state /\
  fst (undoStroke sample_state "a2" "s2" "u2" 9) = None /\
  snd (undoStroke sample_state "a2" "s2" "u2" 9) = sample_state.
Proof.
  assert (H1 : fst (appendPoints sample_state "nowhere" [mkPoint 1 2 3] 1000)
               <> Returned true) by discriminate.
  assert (H3 : fst (appendPoints sample_state "s1"
                      [mkPoint 1 2 3; mkPoint 4 5 6] 1) <> Returned true)
    by discriminate.
  assert (H2 : fst (undoStroke sample_state "a2" "s2" "u2" 9) = None)
    by reflexivity.
  split; [reflexivity |].
  split; [exact (proj1 (rejections_are_pure sample_state) _ _ _ H1) |].
  split; [reflexivity |].
  split; [exact (proj1 (rejections_are_pure sample_state) _ _ _ H3) |].
  split; [exact H2 |].
  exact (proj1 (proj2 (proj2 (rejections_are_pure sample_state))) _ _ _ _ H2).
Defined.

(** ** C10: completed strokes still accept points *)





(** ** C7: append-only growth *)

Lemma mem_string_iff i l : mem_string i l = true <-> In i l.
Proof.
  unfold mem_string. rewrite existsb_exists. split.
  - intros (j & Hin & Heq). apply String.eqb_eq in Heq. now subst.
  - intros Hin. exists i. split; [assumption | apply String.eqb_refl].
Qed.

Lemma mem_string_false_iff i l : mem_string i l = false <-> ~ In i l.
Proof.
  rewrite <- mem_string_iff. destruct (mem_string i l); split; congruence.
Qed.

Lemma fresh_generated st c i :
  fresh st c = true -> generated c = Some i -> ~ In i (ids_of_state st).
Proof.
  unfold fresh. intros H Hg. rewrite Hg in H.
  apply negb_true_iff in H. now apply mem_string_false_iff.
Qed.

Lemma fresh_not_key st c i :
  fresh st c = true -> generated c = Some i -> map_get i (strokes st) = None.
Proof.
  intros H Hg. apply map_get_none_iff. intros Hin.
  apply (fresh_generated _ _ _ H Hg). unfold ids_of_state.
  apply in_or_app. now left.
Qed.

Lemma grows_refl st : grows st st.
Proof.
  split.
  - exists []. now rewrite app_nil_r.
  - intros k s H. exists s, []. now rewrite app_nil_r.
Qed.

Lemma grows_trans st1 st2 st3 : grows st1 st2 -> grows st2 st3 -> grows st1 st3.
Proof.
  intros [[e1 H1] G1] [[e2 H2] G2]. split.
  - exists (e1 ++ e2). now rewrite H2, H1, app_assoc.
  - intros k s H.
    destruct (G1 k s H) as (s' & m1 & Hs' & Hp1 & Hi1 & Hu1).
    destruct (G2 k s' Hs') as (s'' & m2 & Hs'' & Hp2 & Hi2 & Hu2).
    exists s'', (m1 ++ m2). repeat split; try congruence.
    now rewrite Hp2, Hp1, app_assoc.
Qed.

(** Storing under key [k] a record that extends the one the map holds. *)
Lemma grows_store_update st k s0 s1 more :
  map_get k (strokes st) = Some s0 ->
  points s1 = points s0 ++ more -> id s1 = id s0 -> userId s1 = userId s0 ->
  grows st (mkState (map_set k s1 (strokes st)) (operations st)).
Proof.
  intros Hget Hp Hi Hu. split; simpl.
  - exists []. now rewrite app_nil_r.
  - intros k' s H. destruct (string_dec k' k) as [-> | Hne].
    + rewrite map_get_set_same. exists s1, more.
      assert (s = s0) by congruence. subst s. auto.
    + rewrite map_get_set_other by assumption.
      exists s, []. now rewrite app_nil_r.
Qed.

Lemma step_grows st c : fresh st c = true -> grows st (step st c).
Proof.
  intros Hf.
  destruct c as [u tl col w i now | sid pts lim | sid | u tgt i now | u tgt i now];
    simpl.
  - split; simpl; [eauto |].
    intros k s H.
    assert (Hne : k <> i).
    { intros ->. rewrite (fresh_not_key _ _ _ Hf eq_refl) in H. discriminate. }
    rewrite map_get_set_other by assumption.
    exists s, []. now rewrite app_nil_r.
  - unfold appendPoints. destruct (map_get sid (strokes st)) as [s0 |] eqn:E; simpl.
    + destruct (List.length pts <=? lim)%nat; simpl; [| apply grows_refl].
      now apply grows_store_update with (s0 := s0) (more := pts).
    + apply grows_refl.
  - unfold completeStroke. destruct (map_get sid (strokes st)) as [s0 |] eqn:E; simpl.
    + apply grows_store_update with (s0 := s0) (more := []); auto.
      simpl. now rewrite app_nil_r.
    + apply grows_refl.
  - unfold undoStroke.
    destruct (map_get tgt (strokes st)) as [s0 |]; simpl; [| apply grows_refl].
    destruct (negb (isStrokeVisible st tgt)); simpl; [apply grows_refl |].
    split; simpl; [eauto |]. intros k s H. exists s, []. now rewrite app_nil_r.
  - unfold redoStroke.
    destruct (find (is_undo_with_id tgt) (operations st)); simpl; [| apply grows_refl].
    destruct (existsb (is_redo_of tgt) (operations st)); simpl; [apply grows_refl |].
    split; simpl; [eauto |]. intros k s H. exists s, []. now rewrite app_nil_r.
Qed.

Lemma run_grows cs : forall st, fresh_run st cs = true -> grows st (run st cs).
Proof.
  unfold run. induction cs as [| c cs IH]; intros st Hf; simpl in *.
  - apply grows_refl.
  - apply andb_true_iff in Hf. destruct Hf as [Hc Hcs].
    eapply grows_trans; [apply step_grows; eassumption | now apply IH].
Qed.

(** C7. Along every sequence of calls the log only grows at its end: the
    old log is a prefix of the new one, so its length does not decrease and
    no entry changes. Where [uuidv4()] returns unused identifiers, every
    stroke of the store is still there under its key, and its old point
    sequence is a prefix of its new one. *)
Theorem append_only (st : DrawingState) (cs : list Command) :
  (exists ext, operations (run st cs) = operations st ++ ext) /\
  List.length (operations st) <= List.length (operations (run st cs)) /\
  (forall n op, nth_error (operations st) n = Some op ->
                nth_error (operations (run st cs)) n = Some op) /\
  (fresh_run st cs = true ->
   forall k s, map_get k (strokes st) = Some s ->
     exists s' more,
       map_get k (strokes (run st cs)) = Some s' /\
       points s' = points s ++ more /\
       id s' = id s /\ userId s' = userId s).
Proof.
  destruct (run_operations cs st) as [ext Hext].
  split; [eauto |]. split; [| split].
  - rewrite Hext, length_app. lia.
  - intros n op Hn. rewrite Hext, nth_error_app1; auto.
    apply nth_error_Some. congruence.
  - intros Hf. exact (proj2 (run_grows cs st Hf)).
Qed.

(** From the state in which [s1] has one point and the log two entries:
    after more points, a third stroke and an undo of [s1], the second log
    entry is where it was and [s1] is stored with its first point in
    front. *)
Lemma append_only_witness :
  nth_error (operations (run emptyState (firstn 3 sample_cmds))) 1
  = Some (OpStroke "s2" 2 "a2") /\
  map_get "s1" (strokes (run emptyState (firstn 3 sample_cmds)))
  = Some (mkStroke "s1" "a1" brush "#000000" 4 [mkPoint 1 1 10] false) /\
  fresh_run (run emptyState (firstn 3 sample_cmds))
    [AppendPoints "s1" [mkPoint 2 2 11; mkPoint 3 3 12] 1000;
     CreateStroke "a2" brush "#00ff00" 3 "s3" 4;
     UndoStroke "a2" "s1" "u1" 5] = true /\
  nth_error
    (operations
       (run (run emptyState (firstn 3 sample_cmds))
            [AppendPoints "s1" [mkPoint 2 2 11; mkPoint 3 3 12] 1000;
             CreateStroke "a2" brush "#00ff00" 3 "s3" 4;
             UndoStroke "a2" "s1" "u1" 5])) 1
  = Some (OpStroke "s2" 2 "a2") /\
  exists s' more,
    map_get "s1"
      (strokes
         (run (run emptyState (firstn 3 sample_cmds))
              [AppendPoints "s1" [mkPoint 2 2 11; mkPoint 3 3 12] 1000;
               CreateStroke "a2" brush "#00ff00" 3 "s3" 4;
               UndoStroke "a2" "s1" "u1" 5])) = Some s' /\
    points s' = [mkPoint 1 1 10] ++ more /\
    id s' = "s1" /\ userId s' = "a1".
Proof.
  split; [reflexivity |]. split; [reflexivity |]. split; [reflexivity |].
  split.
  - exact (proj1 (proj2 (proj2
             (append_only (run emptyState (firstn 3 sample_cmds))
                [AppendPoints "s1" [mkPoint 2 2 11; mkPoint 3 3 12] 1000;
                 CreateStroke "a2" brush "#00ff00" 3 "s3" 4;
                 UndoStroke "a2" "s1" "u1" 5])))
             1 (OpStroke "s2" 2 "a2") eq_refl).
  - exact (proj2 (proj2 (proj2
             (append_only (run emptyState (firstn 3 sample_cmds))
                [AppendPoints "s1" [mkPoint 2 2 11; mkPoint 3 3 12] 1000;
                 CreateStroke "a2" brush "#00ff00" 3 "s3" 4;
                 UndoStroke "a2" "s1" "u1" 5])))
             eq_refl "s1"
             (mkStroke "s1" "a1" brush "#000000" 4 [mkPoint 1 1 10] false)
             eq_refl).
Defined.

(** ** Reachable states are well formed *)

Lemma strokeOrder_app l1 l2 :
  strokeOrder (l1 ++ l2) = strokeOrder l1 ++ strokeOrder l2.
Proof.
  induction l1 as [| op l1 IH]; simpl; auto.
  destruct op; simpl; now rewrite ?IH.
Qed.

Lemma undoIds_in_ids st i :
  In i (undoIds (operations st)) -> In i (ids_of_state st).
Proof.
  intros H. unfold ids_of_state. apply in_or_app. right.
  destruct (undoIds_In _ _ H) as (tgt & ts & us & Hin).
  apply in_flat_map. eexists; split; [eassumption | simpl; auto].
Qed.

Lemma redoTargets_In ops t :
  In t (redoTargets ops) -> exists ts us i, In (OpRedo t ts us i) ops.
Proof.
  induction ops as [| op ops IH]; simpl; [easy |].
  destruct op as [s ts us | tgt ts us i' | tgt ts us i']; simpl.
  - intros H. destruct (IH H) as (a & b & c & Hin). eauto 6.
  - intros H. destruct (IH H) as (a & b & c & Hin). eauto 6.
  - intros [-> | H]; [eauto 6 |]. destruct (IH H) as (a & b & c & Hin). eauto 6.
Qed.

Lemma redoTargets_in_ids st t :
  In t (redoTargets (operations st)) -> In t (ids_of_state st).
Proof.
  intros H. unfold ids_of_state. apply in_or_app. right.
  destruct (redoTargets_In _ _ H) as (ts & us & i & Hin).
  apply in_flat_map. eexists; split; [eassumption | simpl; auto].
Qed.

Lemma strokeOrder_In ops k :
  In k (strokeOrder ops) -> exists ts us, In (OpStroke k ts us) ops.
Proof.
  induction ops as [| op ops IH]; simpl; [easy |].
  destruct op as [s ts us | tgt ts us i' | tgt ts us i']; simpl.
  - intros [-> | H]; [eauto 6 |]. destruct (IH H) as (a & b & Hin). eauto 6.
  - intros H. destruct (IH H) as (a & b & Hin). eauto 6.
  - intros H. destruct (IH H) as (a & b & Hin). eauto 6.
Qed.

Lemma strokeOrder_in_ids st k :
  In k (strokeOrder (operations st)) -> In k (ids_of_state st).
Proof.
  intros H. unfold ids_of_state. apply in_or_app. right.
  destruct (strokeOrder_In _ _ H) as (ts & us & Hin).
  apply in_flat_map. eexists; split; [eassumption | simpl; auto].
Qed.

Lemma find_app_undo i l1 l2 :
  find (is_undo_with_id i) (l1 ++ l2) =
  match find (is_undo_with_id i) l1 with
  | Some op => Some op
  | None => find (is_undo_with_id i) l2
  end.
Proof.
  induction l1 as [| op l1 IH]; simpl; auto.
  destruct (is_undo_with_id i op); auto.
Qed.

(** Appending an operation does not change what an id resolves to, unless
    the operation is an undo bearing that very id. *)
Lemma undoTarget_snoc ops x i :
  (forall tgt ts us, x <> OpUndo tgt ts us i) ->
  undoTarget (ops ++ [x]) i = undoTarget ops i.
Proof.
  intros Hx. unfold undoTarget. rewrite find_app_undo.
  destruct (find (is_undo_with_id i) ops); auto.
  simpl. destruct x as [s ts us | tgt ts us i' | tgt ts us i']; simpl; auto.
  destruct (String.eqb_spec i' i) as [-> | Hne]; auto.
  exfalso. eapply Hx; reflexivity.
Qed.

Lemma In_redoTargets ops t ts us i :
  In (OpRedo t ts us i) ops -> In t (redoTargets ops).
Proof.
  induction ops as [| op ops IH]; simpl; [easy |].
  intros [-> | Hin]; [now left |].
  destruct op; simpl; auto.
Qed.

(** The counters after one more operation [x], when [x] is not an undo whose
    id some redo of the log already names. *)
Lemma counts_snoc ops x sid :
  (forall tgt ts us i, x = OpUndo tgt ts us i -> ~ In i (redoTargets ops)) ->
  count (undo_targets sid) (ops ++ [x])
  = count (undo_targets sid) ops + (if undo_targets sid x then 1 else 0) /\
  count (redo_counts (ops ++ [x]) sid) (ops ++ [x])
  = count (redo_counts ops sid) ops + (if redo_counts ops sid x then 1 else 0).
Proof.
  intros Hx. rewrite !count_app. split.
  - unfold count at 2. simpl. now destruct (undo_targets sid x).
  - assert (Hres : forall t, (In t (redoTargets ops) \/ exists ts us i, x = OpRedo t ts us i)
                             -> undoTarget (ops ++ [x]) t = undoTarget ops t).
    { intros t Ht. apply undoTarget_snoc. intros tgt ts us ->.
      destruct Ht as [Ht | (a & b & c & Ht)]; [| discriminate].
      eapply Hx; eauto. }
    f_equal.
    + apply count_ext_in. intros [s ts us | tgt ts us i | tgt ts us i] Hin; simpl; auto.
      rewrite Hres; auto. left. eapply In_redoTargets; eauto.
    + unfold count. simpl.
      destruct x as [s ts us | tgt ts us i | tgt ts us i]; simpl; auto.
      rewrite Hres by (right; eauto).
      destruct (undoTarget ops tgt) as [s |]; simpl; auto.
      now destruct (String.eqb s sid).
Qed.

Lemma In_map_set k v m k' s :
  In (k', s) (map_set k v m) -> In (k', s) m \/ (k' = k /\ s = v).
Proof.
  induction m as [| [k0 v0] m IH]; simpl.
  - intros [H | []]. inversion H. auto.
  - destruct (String.eqb_spec k0 k) as [-> | Hne]; simpl.
    + intros [H | H]; [inversion H; auto | auto].
    + intros [H | H]; [auto |]. destruct (IH H); auto.
Qed.

Lemma map_get_In k m s : map_get k m = Some s -> In (k, s) m.
Proof.
  induction m as [| [k0 v0] m IH]; simpl; [discriminate |].
  destruct (String.eqb_spec k0 k) as [-> | Hne].
  - intros H. inversion H. now left.
  - intros H. right. auto.
Qed.

Lemma wf_empty : wf_state emptyState.
Proof.
  constructor; simpl; try constructor; easy.
Qed.

(** Replacing a stored stroke by one with the same id keeps the invariant. *)
Lemma wf_store_update st k s0 s1 :
  wf_state st -> map_get k (strokes st) = Some s0 -> id s1 = id s0 ->
  wf_state (mkState (map_set k s1 (strokes st)) (operations st)).
Proof.
  intros [Hk Hnd Hid Hu Hr Hrr Hb] Hget Hi.
  constructor; simpl; auto.
  - erewrite map_set_keys_present; eauto.
  - intros k' s Hin. destruct (In_map_set _ _ _ _ _ Hin) as [H | [-> ->]]; auto.
    rewrite Hi. apply Hid. now apply map_get_In.
Qed.

Lemma NoDup_snoc {A} (l : list A) (a : A) :
  NoDup l -> ~ In a l -> NoDup (l ++ [a]).
Proof.
  intros Hnd Hn. induction Hnd as [| b l Hb Hnd IH]; simpl.
  - constructor; [easy | constructor].
  - constructor.
    + rewrite in_app_iff. simpl. intros [H | [H | []]]; [auto |].
      subst. apply Hn. now left.
    + apply IH. intros H. apply Hn. now right.
Qed.

Lemma balance_snoc ops x :
  (forall tgt ts us i, x = OpUndo tgt ts us i -> ~ In i (redoTargets ops)) ->
  (forall tgt ts us i, x = OpUndo tgt ts us i ->
     count (undo_targets tgt) ops <= count (redo_counts ops tgt) ops) ->
  (forall sid, count (undo_targets sid) ops <= S (count (redo_counts ops sid) ops)) ->
  forall sid, count (undo_targets sid) (ops ++ [x])
              <= S (count (redo_counts (ops ++ [x]) sid) (ops ++ [x])).
Proof.
  intros Hx Hvis Hb sid.
  destruct (counts_snoc ops x sid Hx) as [-> ->].
  specialize (Hb sid).
  destruct (undo_targets sid x) eqn:Eu.
  - destruct x as [s ts us | tgt ts us i | tgt ts us i]; simpl in Eu; try discriminate.
    apply String.eqb_eq in Eu. subst tgt.
    specialize (Hvis _ _ _ _ eq_refl). lia.
  - lia.
Qed.

Lemma step_wf st c : wf_state st -> fresh st c = true -> wf_state (step st c).
Proof.
  intros Hwf Hf.
  destruct c as [u tl col w i now | sid pts lim | sid | u tgt i now | u tgt i now];
    simpl.
  - (* createStroke *)
    assert (Hfresh := fresh_generated _ _ _ Hf eq_refl).
    destruct Hwf as [Hk Hnd Hid Hu Hr Hrr Hb].
    constructor; simpl;
      rewrite ?strokeOrder_app, ?undoIds_app, ?redoTargets_app; simpl;
      rewrite ?app_nil_r; auto.
    + rewrite map_set_keys_absent by (eapply fresh_not_key; eauto). now rewrite Hk.
    + apply NoDup_snoc; auto. intros H. apply Hfresh.
      now apply strokeOrder_in_ids.
    + intros k s Hin. destruct (In_map_set _ _ _ _ _ Hin) as [H | [-> ->]]; auto.
    + apply balance_snoc; auto; intros; discriminate.
  - (* appendPoints *)
    unfold appendPoints. destruct (map_get sid (strokes st)) as [s0 |] eqn:E; simpl; auto.
    destruct (List.length pts <=? lim)%nat; simpl; auto.
    eapply wf_store_update; eauto.
  - (* completeStroke *)
    unfold completeStroke. destruct (map_get sid (strokes st)) as [s0 |] eqn:E; simpl; auto.
    eapply wf_store_update; eauto.
  - (* undoStroke *)
    unfold undoStroke. destruct (map_get tgt (strokes st)) as [s0 |] eqn:E; simpl; auto.
    destruct (isStrokeVisible st tgt) eqn:Ev; simpl; auto.
    assert (Hfresh := fresh_generated _ _ _ Hf eq_refl).
    destruct Hwf as [Hk Hnd Hid Hu Hr Hrr Hb].
    constructor; simpl;
      rewrite ?strokeOrder_app, ?undoIds_app, ?redoTargets_app; simpl;
      rewrite ?app_nil_r; auto.
    + apply NoDup_snoc; auto. intros H. apply Hfresh. now apply undoIds_in_ids.
    + now apply incl_appl.
    + apply balance_snoc; auto.
      * intros tgt' ts us i' Heq H. inversion Heq; subst.
        apply Hfresh. now apply redoTargets_in_ids.
      * intros tgt' ts us i' Heq. inversion Heq; subst.
        rewrite isStrokeVisible_counts in Ev. now apply Nat.leb_le.
  - (* redoStroke *)
    unfold redoStroke.
    destruct (find (is_undo_with_id tgt) (operations st)) as [op |] eqn:Ef; simpl; auto.
    destruct (existsb (is_redo_of tgt) (operations st)) eqn:Ee; simpl; auto.
    destruct Hwf as [Hk Hnd Hid Hu Hr Hrr Hb].
    constructor; simpl;
      rewrite ?strokeOrder_app, ?undoIds_app, ?redoTargets_app; simpl;
      rewrite ?app_nil_r; auto.
    + apply NoDup_snoc; auto. intros H. apply existsb_redo_iff in H. congruence.
    + apply incl_app; auto. intros t [<- | []].
      destruct (in_dec string_dec tgt (undoIds (operations st))) as [H | H]; auto.
      apply find_undo_none_iff in H. congruence.
    + apply balance_snoc; auto; intros; discriminate.
Qed.

Lemma run_wf cs : forall st,
  wf_state st -> fresh_run st cs = true -> wf_state (run st cs).
Proof.
  unfold run. induction cs as [| c cs IH]; intros st Hwf Hf; simpl in *; auto.
  apply andb_true_iff in Hf. destruct Hf as [Hc Hcs].
  apply IH; auto. now apply step_wf.
Qed.

Lemma reachable_wf st : reachable st -> wf_state st.
Proof.
  intros (cs & Hf & <-). apply run_wf; auto. apply wf_empty.
Qed.

Lemma sample_reachable : reachable sample_state.
Proof. exists sample_cmds. split; reflexivity. Qed.

(** ** C6: [getVisibleStrokes] *)

Lemma array_sort_sorted {A} (cmp : A -> A -> Z) (l : list A) :
  StronglySorted (fun a b => (cmp a b <= 0)%Z) l -> array_sort cmp l = l.
Proof.
  induction 1 as [| a l Hs IH Hall]; [reflexivity |].
  change (array_sort cmp (a :: l)) with (sort_insert cmp a (array_sort cmp l)).
  rewrite IH.
  destruct l as [| b l]; simpl; [reflexivity |].
  inversion Hall as [| ? ? Hab _]; subst.
  apply Z.leb_le in Hab. now rewrite Hab.
Qed.

Lemma indexOf_from_ge l k : forall i, In k l -> (i <= indexOf_from i l k)%Z.
Proof.
  induction l as [| a l IH]; intros i Hin; simpl; [easy |].
  destruct (String.eqb_spec a k) as [-> | Hne]; [lia |].
  destruct Hin as [-> | Hin]; [congruence |].
  specialize (IH (i + 1)%Z Hin). lia.
Qed.

Lemma indexOf_from_skip pre l k : forall i,
  ~ In k pre ->
  indexOf_from i (pre ++ l) k = indexOf_from (i + Z.of_nat (List.length pre)) l k.
Proof.
  induction pre as [| a pre IH]; intros i Hn.
  - simpl. f_equal. lia.
  - cbn [app indexOf_from List.length].
    destruct (String.eqb_spec a k) as [-> | Hne]; [exfalso; apply Hn; now left |].
    rewrite IH by (intros H; apply Hn; now right). f_equal. lia.
Qed.

Lemma NoDup_app_disjoint {A} (l1 l2 : list A) x :
  NoDup (l1 ++ l2) -> In x l2 -> ~ In x l1.
Proof.
  induction l1 as [| a l1 IH]; simpl; [tauto |].
  intros Hnd Hin [-> | H].
  - inversion Hnd; subst. rewrite in_app_iff in *. tauto.
  - inversion Hnd; subst. now apply IH.
Qed.

(** In a store whose keys are distinct and equal to the stored ids, the
    strokes are already in increasing [indexOf] order of any key list that
    ends with the keys of the store. *)
Lemma store_sorted l : forall pre,
  NoDup (pre ++ map fst l) ->
  (forall k s, In (k, s) l -> id s = k) ->
  StronglySorted (fun a b => (order_cmp (pre ++ map fst l) a b <= 0)%Z)
                 (map snd l).
Proof.
  induction l as [| [k s] l IH]; intros pre Hnd Hid; simpl; [constructor |].
  assert (Hk : id s = k) by (apply Hid; now left).
  assert (Hnk : ~ In k pre).
  { eapply NoDup_app_disjoint; [exact Hnd | now left]. }
  constructor.
  - specialize (IH (pre ++ [k])). rewrite <- app_assoc in IH. simpl in IH.
    apply IH; auto. intros k' s' Hin. apply Hid. now right.
  - rewrite Forall_forall. intros s' Hs'.
    apply in_map_iff in Hs'. destruct Hs' as ([k' s''] & Heq & Hin).
    simpl in Heq. subst s''.
    assert (Hk' : id s' = k') by (apply Hid; now right).
    assert (Hin' : In k' (map fst l)) by (apply in_map_iff; now exists (k', s')).
    assert (Hnk' : ~ In k' pre).
    { eapply NoDup_app_disjoint; [exact Hnd | now right]. }
    assert (Hkk' : k <> k').
    { intros ->. apply NoDup_remove_2 in Hnd. apply Hnd.
      apply in_or_app. now right. }
    unfold order_cmp, indexOf. rewrite Hk, Hk'.
    rewrite !indexOf_from_skip by assumption. simpl.
    rewrite String.eqb_refl.
    destruct (String.eqb_spec k k'); [congruence |].
    pose proof (indexOf_from_ge (map fst l) k'
                  (Z.of_nat (List.length pre) + 1)%Z Hin').
    lia.
Qed.

Lemma wf_store_sorted st :
  wf_state st ->
  StronglySorted
    (fun a b => (order_cmp (strokeOrder (operations st)) a b <= 0)%Z)
    (map snd (strokes st)).
Proof.
  intros Hwf. rewrite <- (wf_keys _ Hwf).
  apply (store_sorted (strokes st) []); simpl.
  - rewrite (wf_keys _ Hwf). apply (wf_keys_nodup _ Hwf).
  - apply (wf_key_id _ Hwf).
Qed.

Lemma filter_map_snd {A B} (p : B -> bool) (l : list (A * B)) :
  filter p (map snd l) = map snd (filter (fun kv => p (snd kv)) l).
Proof.
  induction l as [| [k v] l IH]; simpl; auto.
  destruct (p v); simpl; now rewrite IH.
Qed.

Lemma filter_map_fst {A B} (p : A -> bool) (l : list (A * B)) :
  filter p (map fst l) = map fst (filter (fun kv => p (fst kv)) l).
Proof.
  induction l as [| [k v] l IH]; simpl; auto.
  destruct (p k); simpl; now rewrite IH.
Qed.

(** The sort of [getVisibleStrokes] finds its input already in order. *)
Lemma getVisibleStrokes_unsorted st :
  wf_state st ->
  getVisibleStrokes st =
  map snd (filter (fun kv => isStrokeVisible st (fst kv)) (strokes st)).
Proof.
  intros Hwf. unfold getVisibleStrokes. apply array_sort_sorted.
  pose proof (wf_store_sorted st Hwf) as Hs.
  remember (strokes st) as l eqn:El. clear El.
  induction l as [| [k s] l IH]; simpl in *; [constructor |].
  inversion Hs as [| ? ? Hs' Hall]; subst.
  destruct (isStrokeVisible st k); simpl; auto.
  constructor; auto.
  rewrite Forall_forall in *. intros b Hb. apply Hall.
  apply in_map_iff in Hb. destruct Hb as (kv & <- & Hkv).
  apply filter_In in Hkv. apply in_map. tauto.
Qed.

Lemma map_get_of_In m k s :
  NoDup (map fst m) -> In (k, s) m -> map_get k m = Some s.
Proof.
  induction m as [| [k0 v0] m IH]; simpl; [easy |].
  intros Hnd [H | H].
  - inversion H; subst. now rewrite String.eqb_refl.
  - inversion Hnd as [| ? ? Hn Hnd']; subst.
    destruct (String.eqb_spec k0 k) as [-> | Hne]; auto.
    exfalso. apply Hn. apply in_map_iff. now exists (k, s).
Qed.

Lemma wf_store_nodup st : wf_state st -> NoDup (map fst (strokes st)).
Proof. intros Hwf. rewrite (wf_keys _ Hwf). apply (wf_keys_nodup _ Hwf). Qed.

(** C6. In every reachable state [getVisibleStrokes] returns the strokes of
    the store whose key is visible, in store order; their ids are the
    visible entries of the list of stroke operations of the log, in log
    order (so two returned strokes stand in the order of their stroke
    operations whatever else is hidden); and a stroke is returned exactly
    when the store holds it and it is visible. *)
Theorem getVisibleStrokes_spec (st : DrawingState) :
  reachable st ->
  getVisibleStrokes st =
    map snd (filter (fun kv => isStrokeVisible st (fst kv)) (strokes st)) /\
  map id (getVisibleStrokes st) =
    filter (isStrokeVisible st) (strokeOrder (operations st)) /\
  (forall s, In s (getVisibleStrokes st) <->
             map_get (id s) (strokes st) = Some s /\
             isStrokeVisible st (id s) = true).
Proof.
  intros Hr. pose proof (reachable_wf st Hr) as Hwf.
  pose proof (getVisibleStrokes_unsorted st Hwf) as Heq.
  split; [exact Heq |]. rewrite Heq. split.
  - rewrite <- (wf_keys _ Hwf), filter_map_fst, map_map.
    apply map_ext_in. intros [k s] Hin. simpl.
    apply filter_In in Hin. apply (wf_key_id _ Hwf). tauto.
  - intros s. rewrite in_map_iff. split.
    + intros ([k s'] & Hs & Hin). simpl in Hs. subst s'.
      apply filter_In in Hin. destruct Hin as [Hin Hv]. simpl in Hv.
      rewrite (wf_key_id _ Hwf _ _ Hin). split; auto.
      apply map_get_of_In; auto. now apply wf_store_nodup.
    + intros [Hget Hv]. exists (id s, s). split; auto.
      apply filter_In. split; auto. now apply map_get_In.
Qed.

Lemma getVisibleStrokes_spec_witness :
  reachable sample_state /\
  map id (getVisibleStrokes sample_state) = ["s1"] /\
  strokeOrder (operations sample_state) = ["s1"; "s2"].
Proof.
  split; [exact sample_reachable |].
  split; [| reflexivity].
  rewrite (proj1 (proj2 (getVisibleStrokes_spec sample_state sample_reachable))).
  reflexivity.
Defined.

(** ** C9: [getLastVisibleStrokeByUser] *)

Lemma last_opt_none {A} (l : list A) : last_opt l = None <-> l = [].
Proof.
  induction l as [| a l IH]; simpl; [tauto |].
  destruct l as [| b l]; [split; discriminate |].
  rewrite IH. split; discriminate.
Qed.

Lemma last_opt_cons {A} (a : A) (l : list A) :
  l <> [] -> last_opt (a :: l) = last_opt l.
Proof. destruct l; simpl; congruence. Qed.

Lemma last_opt_snoc {A} (l : list A) (x : A) : last_opt (l ++ [x]) = Some x.
Proof.
  induction l as [| a l IH]; [reflexivity |].
  cbn [app]. rewrite last_opt_cons; auto.
  destruct l; discriminate.
Qed.

Lemma last_opt_map {A B} (f : A -> B) (l : list A) :
  last_opt (map f l) = option_map f (last_opt l).
Proof.
  induction l as [| a l IH]; [reflexivity |].
  destruct l as [| b l]; [reflexivity |].
  cbn [map]. rewrite !last_opt_cons by discriminate. exact IH.
Qed.

Lemma last_opt_In {A} (l : list A) (x : A) : last_opt l = Some x -> In x l.
Proof.
  induction l as [| a l IH]; [discriminate |].
  destruct l as [| b l].
  - simpl. intros H. inversion H. now left.
  - rewrite last_opt_cons by discriminate. intros H. right. auto.
Qed.

Lemma filter_nil_iff {A} (p : A -> bool) (l : list A) :
  filter p l = [] <-> forall y, In y l -> p y = false.
Proof.
  induction l as [| a l IH]; simpl; [tauto |].
  destruct (p a) eqn:E.
  - split; [discriminate |]. intros H. specialize (H a (or_introl eq_refl)). congruence.
  - rewrite IH. split.
    + intros H y [-> | Hy]; auto.
    + intros H y Hy. apply H. now right.
Qed.

(** The last element that passes a filter splits the list: it passes, and
    nothing after it does. *)
Lemma last_opt_filter_some {A} (p : A -> bool) (l : list A) (x : A) :
  last_opt (filter p l) = Some x <->
  exists l1 l2, l = l1 ++ x :: l2 /\ p x = true /\
                forall y, In y l2 -> p y = false.
Proof.
  split.
  - induction l as [| a l IH]; simpl; [discriminate |].
    destruct (last_opt (filter p l)) as [y |] eqn:El.
    + intros H.
      assert (Hxy : Some y = Some x).
      { rewrite <- H. destruct (p a); auto.
        rewrite last_opt_cons; auto. intros Hn. rewrite Hn in El. discriminate. }
      destruct (IH Hxy) as (l1 & l2 & -> & Hp & Hall).
      exists (a :: l1), l2. auto.
    + apply last_opt_none in El. rewrite El.
      destruct (p a) eqn:Ea; simpl; [| discriminate].
      intros H. inversion H; subst.
      exists [], l. repeat split; auto. now apply filter_nil_iff.
  - intros (l1 & l2 & -> & Hp & Hall).
    rewrite filter_app. simpl. rewrite Hp.
    apply filter_nil_iff in Hall. rewrite Hall. apply last_opt_snoc.
Qed.

Lemma filter_twice {A} (p q : A -> bool) (l : list A) :
  filter p (filter q l) = filter (fun a => q a && p a) l.
Proof.
  induction l as [| a l IH]; simpl; auto.
  destruct (q a); simpl; [destruct (p a) |]; now rewrite IH.
Qed.

Lemma undo_candidate_iff st user k s :
  undo_candidate st user (k, s) = true <->
  isStrokeVisible st k = true /\ complete s = true /\ userId s = user.
Proof.
  unfold undo_candidate. simpl.
  rewrite !andb_true_iff, String.eqb_eq. tauto.
Qed.

Lemma undo_candidate_false_iff st user k s :
  undo_candidate st user (k, s) = false <->
  ~ (isStrokeVisible st k = true /\ complete s = true /\ userId s = user).
Proof.
  rewrite <- undo_candidate_iff.
  destruct (undo_candidate st user (k, s)); split; congruence.
Qed.

(** On a well-formed state the method is a search of the store from its
    end. *)
Lemma getLastVisibleStrokeByUser_store st user :
  wf_state st ->
  getLastVisibleStrokeByUser st user =
  option_map fst (last_opt (filter (undo_candidate st user) (strokes st))).
Proof.
  intros Hwf. unfold getLastVisibleStrokeByUser.
  rewrite (getVisibleStrokes_unsorted st Hwf), filter_map_snd, filter_twice.
  rewrite last_opt_map.
  change (fun a : string * Stroke =>
            isStrokeVisible st (fst a)
            && (String.eqb (userId (snd a)) user && complete (snd a)))
    with (undo_candidate st user).
  destruct (last_opt (filter (undo_candidate st user) (strokes st)))
    as [[k s] |] eqn:E; simpl; auto.
  apply last_opt_In, filter_In in E. f_equal.
  apply (wf_key_id _ Hwf). tauto.
Qed.

(** C9. In every reachable state, [getLastVisibleStrokeByUser] returns
    [null] exactly when the store holds no stroke that is visible, completed
    and authored by the user; and it returns [i] exactly when the store, read
    in insertion order, splits at such a stroke with key [i] after which no
    other such stroke comes. The insertion order of the store is the order
    of the stroke operations in the log. *)
Theorem getLastVisibleStrokeByUser_spec (st : DrawingState) (user : string) :
  reachable st ->
  (getLastVisibleStrokeByUser st user = None <->
   forall k s, In (k, s) (strokes st) ->
     ~ (isStrokeVisible st k = true /\ complete s = true /\ userId s = user)) /\
  (forall i,
     getLastVisibleStrokeByUser st user = Some i <->
     exists before s after,
       strokes st = before ++ (i, s) :: after /\
       (isStrokeVisible st i = true /\ complete s = true /\ userId s = user) /\
       forall k' s', In (k', s') after ->
         ~ (isStrokeVisible st k' = true /\ complete s' = true
            /\ userId s' = user)) /\
  map fst (strokes st) = strokeOrder (operations st).
Proof.
  intros Hr. pose proof (reachable_wf st Hr) as Hwf.
  rewrite (getLastVisibleStrokeByUser_store st user Hwf).
  split; [| split; [| apply (wf_keys _ Hwf)]].
  - destruct (last_opt (filter (undo_candidate st user) (strokes st)))
      as [kv |] eqn:E; simpl.
    + split; [discriminate |]. intros H. exfalso.
      apply last_opt_In, filter_In in E. destruct E as [Hin Hc].
      destruct kv as [k s]. apply undo_candidate_iff in Hc.
      exact (H k s Hin Hc).
    + split; auto. intros _ k s Hin.
      apply last_opt_none in E.
      apply undo_candidate_false_iff.
      exact (proj1 (filter_nil_iff _ _) E (k, s) Hin).
  - intros i. split.
    + destruct (last_opt (filter (undo_candidate st user) (strokes st)))
        as [[k s] |] eqn:E; simpl; [| discriminate].
      intros H. inversion H; subst k.
      apply last_opt_filter_some in E.
      destruct E as (l1 & l2 & Hl & Hp & Hall).
      exists l1, s, l2. split; auto. split; [now apply undo_candidate_iff |].
      intros k' s' Hin. apply undo_candidate_false_iff. now apply Hall.
    + intros (l1 & s & l2 & Hl & Hp & Hall).
      assert (E : last_opt (filter (undo_candidate st user) (strokes st))
                  = Some (i, s)).
      { apply last_opt_filter_some. exists l1, l2. split; auto.
        split; [now apply undo_candidate_iff |].
        intros [k' s'] Hin. apply undo_candidate_false_iff. now apply Hall. }
      now rewrite E.
Qed.

Lemma getLastVisibleStrokeByUser_spec_witness :
  reachable sample_state /\
  getLastVisibleStrokeByUser sample_state "a1" = Some "s1" /\
  (getLastVisibleStrokeByUser sample_state "a2" = None <->
   forall k s, In (k, s) (strokes sample_state) ->
     ~ (isStrokeVisible sample_state k = true /\ complete s = true
        /\ userId s = "a2")).
Proof.
  split; [exact sample_reachable |].
  split; [reflexivity |].
  exact (proj1 (getLastVisibleStrokeByUser_spec sample_state "a2"
                  sample_reachable)).
Defined.

(** ** Undos and the redos that consume them *)

Lemma redoCount_code ops sid :
  NoDup (undoIds ops) ->
  redoCount ops sid = count (redo_counts ops sid) ops.
Proof.
  intros Hnd. unfold redoCount. apply count_ext_in.
  intros [s ts us | tgt ts us i | tgt ts us i] _; simpl; auto.
  now apply undo_named_find.
Qed.

Lemma undoTarget_of_In ops t ts us u :
  NoDup (undoIds ops) -> In (OpUndo t ts us u) ops -> undoTarget ops u = Some t.
Proof.
  unfold undoTarget.
  induction ops as [| op ops IH]; simpl; [easy |].
  intros Hnd [-> | Hin].
  - simpl. now rewrite String.eqb_refl.
  - destruct op as [s ts' us' | tgt ts' us' i | tgt ts' us' i]; simpl in *; auto.
    inversion Hnd as [| ? ? Hn Hnd']; subst.
    destruct (String.eqb_spec i u) as [-> | Hne]; auto.
    exfalso. apply Hn. eapply In_undoIds; eauto.
Qed.

Lemma undoTarget_Some_In ops u t :
  undoTarget ops u = Some t -> exists ts us, In (OpUndo t ts us u) ops.
Proof.
  unfold undoTarget.
  destruct (find (is_undo_with_id u) ops) as [op |] eqn:E; [| discriminate].
  destruct (find_undo_is_undo _ _ _ E) as (tgt & ts & us & -> & Hin).
  intros H. inversion H; subst. eauto.
Qed.

Lemma length_undoIds_filter sid l :
  List.length (undoIds (filter (undo_targets sid) l)) = count (undo_targets sid) l.
Proof.
  unfold count. induction l as [| op l IH]; simpl; auto.
  destruct op as [s ts us | tgt ts us i | tgt ts us i]; simpl; auto.
  destruct (String.eqb tgt sid); simpl; auto.
Qed.

Lemma length_redoTargets_filter all sid l :
  List.length (redoTargets (filter (redo_counts all sid) l))
  = count (redo_counts all sid) l.
Proof.
  unfold count. induction l as [| op l IH]; simpl; auto.
  destruct op as [s ts us | tgt ts us i | tgt ts us i]; simpl; auto.
  destruct (match undoTarget all tgt with
            | Some tgt0 => String.eqb tgt0 sid
            | None => false
            end); simpl; auto.
Qed.

Lemma undoIds_filter_In p l i :
  In i (undoIds (filter p l)) -> In i (undoIds l).
Proof.
  intros H. destruct (undoIds_In _ _ H) as (tgt & ts & us & Hin).
  apply filter_In in Hin. eapply In_undoIds. apply Hin.
Qed.

Lemma undoIds_filter_NoDup p l :
  NoDup (undoIds l) -> NoDup (undoIds (filter p l)).
Proof.
  induction l as [| op l IH]; simpl; auto.
  destruct op as [s ts us | tgt ts us i | tgt ts us i]; simpl;
    destruct (p _); simpl; auto.
  - intros Hnd. inversion Hnd; subst. constructor; auto.
    intros H. apply undoIds_filter_In in H. contradiction.
  - intros Hnd. inversion Hnd; subst. auto.
Qed.

(** A hidden stroke has an undo that no redo has consumed. *)
Lemma hidden_has_open_undo st sid :
  wf_state st -> isStrokeVisible st sid = false ->
  exists u, undoTarget (operations st) u = Some sid /\
            ~ In u (redoTargets (operations st)).
Proof.
  intros Hwf Hv. rewrite isStrokeVisible_counts in Hv.
  apply Nat.leb_gt in Hv.
  set (ops := operations st) in *.
  pose proof (wf_undo_nodup _ Hwf) as Hnd. fold ops in Hnd.
  set (U := undoIds (filter (undo_targets sid) ops)).
  set (R := redoTargets (filter (redo_counts ops sid) ops)).
  assert (HU : forall u, In u U -> undoTarget ops u = Some sid).
  { intros u Hu. destruct (undoIds_In _ _ Hu) as (tgt & ts & us & Hin).
    apply filter_In in Hin. destruct Hin as [Hin Ht]. simpl in Ht.
    apply String.eqb_eq in Ht. subst tgt.
    eapply undoTarget_of_In; eauto. }
  destruct (find (fun u => negb (mem_string u (redoTargets ops))) U)
    as [u |] eqn:Ef.
  - apply find_some in Ef. destruct Ef as [Hu Hn].
    exists u. split; auto.
    apply negb_true_iff in Hn. now apply mem_string_false_iff.
  - exfalso.
    assert (Hincl : incl U R).
    { intros u Hu.
      pose proof (find_none _ _ Ef u Hu) as Hm. simpl in Hm.
      apply negb_false_iff, mem_string_iff in Hm.
      destruct (redoTargets_In _ _ Hm) as (ts & us & i & Hin).
      apply (In_redoTargets _ u ts us i). apply filter_In. split; auto.
      simpl. rewrite (HU u Hu). apply String.eqb_refl. }
    assert (Hlen : List.length U <= List.length R).
    { apply NoDup_incl_length; auto. now apply undoIds_filter_NoDup. }
    unfold U, R in Hlen.
    rewrite length_undoIds_filter, length_redoTargets_filter in Hlen. lia.
Qed.

(** Redoing an unconsumed undo of a hidden stroke is accepted and makes the
    stroke visible. *)
Lemma redo_restores st sid u user newId now :
  wf_state st ->
  undoTarget (operations st) u = Some sid ->
  ~ In u (redoTargets (operations st)) ->
  fst (redoStroke st user u newId now) = true /\
  isStrokeVisible (snd (redoStroke st user u newId now)) sid = true.
Proof.
  intros Hwf Hu Hn. unfold redoStroke.
  assert (Hfind : find (is_undo_with_id u) (operations st) <> None).
  { unfold undoTarget in Hu. destruct (find (is_undo_with_id u) (operations st));
      congruence. }
  destruct (find (is_undo_with_id u) (operations st)) as [op |]; [| congruence].
  assert (He : existsb (is_redo_of u) (operations st) = false).
  { apply not_true_is_false. intros H. apply existsb_redo_iff in H. contradiction. }
  rewrite He. simpl. split; auto.
  rewrite isStrokeVisible_counts. simpl. apply Nat.leb_le.
  destruct (counts_snoc (operations st) (OpRedo u now user newId) sid) as [-> ->];
    [intros; discriminate |].
  simpl. rewrite Hu, String.eqb_refl.
  pose proof (wf_balance _ Hwf sid). lia.
Qed.

Lemma wf_counts_bounded st sid :
  wf_state st ->
  undoCount (operations st) sid <= S (redoCount (operations st) sid).
Proof.
  intros Hwf. unfold undoCount.
  rewrite redoCount_code by apply (wf_undo_nodup _ Hwf).
  apply (wf_balance _ Hwf).
Qed.

(** ** Interleaving two calls *)



Lemma step_log st c :
  operations (step st c) = operations st ++ effect_if (accepted st c) c.
Proof.
  destruct c as [u tl col w i now | sid pts lim | sid | u tgt i now | u tgt i now];
    simpl.
  - reflexivity.
  - unfold appendPoints.
    destruct (map_get sid (strokes st));
      [destruct (List.length pts <=? lim)%nat |]; simpl;
      now rewrite app_nil_r.
  - unfold completeStroke. destruct (map_get sid (strokes st)); simpl;
      now rewrite app_nil_r.
  - unfold undoStroke. destruct (map_get tgt (strokes st)); simpl.
    + destruct (isStrokeVisible st tgt); simpl; auto. now rewrite app_nil_r.
    + now rewrite app_nil_r.
  - unfold redoStroke. destruct (find (is_undo_with_id tgt) (operations st)); simpl.
    + destruct (existsb (is_redo_of tgt) (operations st)); simpl; auto.
      now rewrite app_nil_r.
    + now rewrite app_nil_r.
Qed.

























(** * Further properties of [DrawingState] *)

(** ** Completion is idempotent *)

Lemma map_set_twice k v v' m : map_set k v (map_set k v' m) = map_set k v m.
Proof.
  induction m as [| [k0 v0] m IH]; simpl.
  - now rewrite String.eqb_refl.
  - destruct (String.eqb k0 k) eqn:E; simpl; rewrite E; [reflexivity |].
    now rewrite IH.
Qed.

(** X1. A second [completeStroke] on the same id returns what the first
    returned and leaves the state the first produced; after a successful
    call the stored stroke is complete with its points untouched. *)
Theorem completeStroke_idempotent (st : DrawingState) (k : string) :
  completeStroke (snd (completeStroke st k)) k
  = (fst (completeStroke st k), snd (completeStroke st k)) /\
  (forall s, map_get k (strokes st) = Some s ->
     exists s', map_get k (strokes (snd (completeStroke st k))) = Some s' /\
                complete s' = true /\ points s' = points s /\ id s' = id s).
Proof.
  unfold completeStroke.
  destruct (map_get k (strokes st)) as [s0 |] eqn:E; simpl.
  - split.
    + rewrite map_get_set_same. simpl. now rewrite map_set_twice.
    + intros s Hs. inversion Hs; subst. rewrite map_get_set_same.
      eexists. split; [reflexivity |]. simpl. auto.
  - split; [now rewrite E | discriminate].
Qed.

Lemma completeStroke_idempotent_witness :
  fst (completeStroke sample_state "s1") = true /\
  completeStroke (snd (completeStroke sample_state "s1")) "s1"
  = (fst (completeStroke sample_state "s1"),
     snd (completeStroke sample_state "s1")).
Proof.
  split; [reflexivity |].
  exact (proj1 (completeStroke_idempotent sample_state "s1")).
Defined.

(** ** Undo and redo as a round trip *)

Lemma redoTargets_filter_In p l i :
  In i (redoTargets (filter p l)) -> In i (redoTargets l).
Proof.
  intros H. destruct (redoTargets_In _ _ H) as (ts & us & j & Hin).
  apply filter_In in Hin. eapply In_redoTargets. apply Hin.
Qed.

Lemma redoTargets_filter_NoDup p l :
  NoDup (redoTargets l) -> NoDup (redoTargets (filter p l)).
Proof.
  induction l as [| op l IH]; simpl; auto.
  destruct op as [s ts us | tgt ts us i | tgt ts us i]; simpl;
    destruct (p _); simpl; auto.
  - intros Hnd. inversion Hnd; subst. constructor; auto.
    intros H. apply redoTargets_filter_In in H. contradiction.
  - intros Hnd. inversion Hnd; subst. auto.
Qed.

(** Every counted redo consumes an undo of its own, so redos never outnumber
    undos. *)
Lemma wf_redo_le_undo st sid :
  wf_state st ->
  count (redo_counts (operations st) sid) (operations st)
  <= count (undo_targets sid) (operations st).
Proof.
  intros Hwf.
  rewrite <- length_undoIds_filter.
  rewrite <- (length_redoTargets_filter (operations st) sid (operations st)).
  apply NoDup_incl_length.
  - apply redoTargets_filter_NoDup, (wf_redo_nodup _ Hwf).
  - intros t Ht.
    destruct (redoTargets_In _ _ Ht) as (ts & us & i & Hin).
    apply filter_In in Hin. destruct Hin as [_ Hc]. simpl in Hc.
    destruct (undoTarget (operations st) t) as [s |] eqn:E; [| discriminate].
    apply String.eqb_eq in Hc. subst s.
    destruct (undoTarget_Some_In _ _ _ E) as (ts' & us' & Hin').
    apply (In_undoIds _ sid ts' us' t).
    apply filter_In. split; auto. simpl. apply String.eqb_refl.
Qed.

Lemma leb_congr a b c d :
  (a <= b <-> c <= d) -> (a <=? b)%nat = (c <=? d)%nat.
Proof.
  intros H. destruct (Nat.leb_spec a b), (Nat.leb_spec c d); auto; lia.
Qed.

Lemma undoStroke_accepted_inv st user tgt newId now :
  fst (undoStroke st user tgt newId now) = Some newId ->
  present st tgt = true /\ isStrokeVisible st tgt = true /\
  undoStroke st user tgt newId now
  = (Some newId,
     mkState (strokes st) (operations st ++ [OpUndo tgt now user newId])).
Proof.
  unfold undoStroke, present.
  destruct (map_get tgt (strokes st)) as [s0 |]; simpl; [| discriminate].
  destruct (isStrokeVisible st tgt); simpl; [auto | discriminate].
Qed.

Lemma fresh_not_redo_target st c i :
  fresh st c = true -> generated c = Some i ->
  ~ In i (redoTargets (operations st)).
Proof.
  intros Hf Hg H. apply (fresh_generated _ _ _ Hf Hg).
  now apply redoTargets_in_ids.
Qed.

Lemma fresh_not_undo_id st c i :
  fresh st c = true -> generated c = Some i ->
  ~ In i (undoIds (operations st)).
Proof.
  intros Hf Hg H. apply (fresh_generated _ _ _ Hf Hg).
  now apply undoIds_in_ids.
Qed.

(** Visibility after pushing an undo with an unused id. *)
Lemma visible_after_undo st tgt now user newId k strokes' :
  ~ In newId (redoTargets (operations st)) ->
  isStrokeVisible
    (mkState strokes' (operations st ++ [OpUndo tgt now user newId])) k
  = (count (undo_targets k) (operations st)
     + (if String.eqb tgt k then 1 else 0)
     <=? count (redo_counts (operations st) k) (operations st))%nat.
Proof.
  intros Hn. rewrite isStrokeVisible_counts. simpl.
  destruct (counts_snoc (operations st) (OpUndo tgt now user newId) k)
    as [-> ->].
  - intros t ts us i Heq. inversion Heq; subst. exact Hn.
  - simpl. now rewrite Nat.add_0_r.
Qed.

(** Redoing an undo that was just pushed with an unused id: accepted, and
    every stroke is as visible as before the undo. *)
Lemma redo_of_fresh_undo st tgt now user newId user' rid now' :
  ~ In newId (undoIds (operations st)) ->
  ~ In newId (redoTargets (operations st)) ->
  redoStroke (mkState (strokes st)
                      (operations st ++ [OpUndo tgt now user newId]))
             user' newId rid now'
  = (true,
     mkState (strokes st)
             ((operations st ++ [OpUndo tgt now user newId])
              ++ [OpRedo newId now' user' rid])) /\
  forall k,
    isStrokeVisible
      (mkState (strokes st)
               ((operations st ++ [OpUndo tgt now user newId])
                ++ [OpRedo newId now' user' rid])) k
    = isStrokeVisible st k.
Proof.
  intros Hnu Hnr. split.
  - unfold redoStroke. cbn [operations strokes].
    rewrite find_app_undo.
    apply find_undo_none_iff in Hnu. rewrite Hnu. simpl.
    rewrite String.eqb_refl.
    rewrite existsb_app. simpl. rewrite orb_false_r.
    destruct (existsb (is_redo_of newId) (operations st)) eqn:E; auto.
    apply existsb_redo_iff in E. contradiction.
  - intros k.
    rewrite (isStrokeVisible_counts st k), isStrokeVisible_counts.
    cbn [operations].
    destruct (counts_snoc (operations st ++ [OpUndo tgt now user newId])
                          (OpRedo newId now' user' rid) k) as [-> ->];
      [intros; discriminate |].
    destruct (counts_snoc (operations st) (OpUndo tgt now user newId) k)
      as [-> ->].
    { intros t ts us i Heq'. inversion Heq'; subst. exact Hnr. }
    assert (Ht : undoTarget (operations st ++ [OpUndo tgt now user newId]) newId
                 = Some tgt).
    { unfold undoTarget. rewrite find_app_undo.
      apply find_undo_none_iff in Hnu. rewrite Hnu. simpl.
      now rewrite String.eqb_refl. }
    simpl. rewrite Ht.
    destruct (String.eqb tgt k); apply leb_congr; lia.
Qed.

(** Visibility right after an accepted undo with an unused id, in a
    well-formed state: the target is hidden, the rest is unchanged. *)
Lemma visible_after_fresh_undo st tgt now user newId k :
  wf_state st ->
  ~ In newId (redoTargets (operations st)) ->
  isStrokeVisible
    (mkState (strokes st) (operations st ++ [OpUndo tgt now user newId])) k
  = if String.eqb tgt k then false else isStrokeVisible st k.
Proof.
  intros Hwf Hnr. rewrite visible_after_undo by assumption.
  destruct (String.eqb_spec tgt k) as [-> | Hne].
  - apply Nat.leb_gt. pose proof (wf_redo_le_undo st k Hwf). lia.
  - now rewrite Nat.add_0_r, isStrokeVisible_counts.
Qed.

(** X2. In a reachable state, an accepted undo (with an unused id) hides its
    stroke and no other; redoing that undo is then accepted, whoever asks,
    and gives every stroke the visibility it had before the undo. *)
Theorem undo_redo_round_trip (st : DrawingState) (user tgt newId : string)
    (now : Z) :
  reachable st ->
  fresh st (UndoStroke user tgt newId now) = true ->
  fst (undoStroke st user tgt newId now) = Some newId ->
  isStrokeVisible (snd (undoStroke st user tgt newId now)) tgt = false /\
  (forall k, k <> tgt ->
     isStrokeVisible (snd (undoStroke st user tgt newId now)) k
     = isStrokeVisible st k) /\
  (forall user' rid now',
     fst (redoStroke (snd (undoStroke st user tgt newId now))
                     user' newId rid now') = true /\
     forall k,
       isStrokeVisible
         (snd (redoStroke (snd (undoStroke st user tgt newId now))
                          user' newId rid now')) k
       = isStrokeVisible st k).
Proof.
  intros Hr Hf Hacc. pose proof (reachable_wf st Hr) as Hwf.
  destruct (undoStroke_accepted_inv _ _ _ _ _ Hacc) as (Hp & Hv & ->).
  cbn [snd].
  pose proof (fresh_not_redo_target _ _ _ Hf eq_refl) as Hnr.
  pose proof (fresh_not_undo_id _ _ _ Hf eq_refl) as Hnu.
  split; [| split].
  - rewrite visible_after_fresh_undo by assumption.
    now rewrite String.eqb_refl.
  - intros k Hk. rewrite visible_after_fresh_undo by assumption.
    destruct (String.eqb_spec tgt k); congruence.
  - intros user' rid now'.
    destruct (redo_of_fresh_undo st tgt now user newId user' rid now' Hnu Hnr)
      as [Heq Hvis].
    rewrite Heq. split; [reflexivity | exact Hvis].
Qed.

Lemma undo_redo_round_trip_witness :
  reachable (run emptyState (firstn 5 sample_cmds)) /\
  isStrokeVisible sample_state "s2" = false /\
  forall k,
    isStrokeVisible (snd (redoStroke sample_state "a2" "u1" "r1" 9)) k
    = isStrokeVisible (run emptyState (firstn 5 sample_cmds)) k.
Proof.
  assert (Hr : reachable (run emptyState (firstn 5 sample_cmds)))
    by (exists (firstn 5 sample_cmds); split; reflexivity).
  split; [exact Hr |].
  pose proof (undo_redo_round_trip (run emptyState (firstn 5 sample_cmds))
                "a1" "s2" "u1" 3%Z Hr eq_refl eq_refl) as (H1 & _ & H3).
  split; [exact H1 |].
  intros k. exact (proj2 (H3 "a2" "r1" 9%Z) k).
Defined.

(** ** [getLastUndoByUser] *)

Lemma find_redo_none_iff ops i :
  find (is_redo_of i) ops = None <-> ~ In i (redoTargets ops).
Proof.
  induction ops as [| op ops IH]; simpl; [tauto |].
  destruct op as [s ts us | tgt ts us i' | tgt ts us i']; simpl; try exact IH.
  destruct (String.eqb_spec tgt i) as [-> | Hne].
  - split; [discriminate | intros H; exfalso; apply H; now left].
  - rewrite IH. tauto.
Qed.

Lemma is_open_undo_of_iff ops user op :
  is_open_undo_of ops user op = true <->
  exists tgt ts i, op = OpUndo tgt ts user i /\ ~ In i (redoTargets ops).
Proof.
  destruct op as [s ts us | tgt ts us i | tgt ts us i]; simpl.
  - split; [discriminate | intros (a & b & c & H & _); discriminate].
  - destruct (String.eqb_spec us user) as [-> | Hne]; simpl.
    + destruct (find (is_redo_of i) ops) eqn:E.
      * split; [discriminate |]. intros (a & b & c & H & Hn).
        inversion H; subst. apply find_redo_none_iff in Hn. congruence.
      * apply find_redo_none_iff in E. split; eauto.
    + split; [discriminate |]. intros (a & b & c & H & _).
      inversion H; congruence.
  - split; [discriminate | intros (a & b & c & H & _); discriminate].
Qed.

Lemma is_open_undo_of_false ops user tgt ts i :
  is_open_undo_of ops user (OpUndo tgt ts user i) = false <->
  In i (redoTargets ops).
Proof.
  split.
  - intros H.
    destruct (in_dec string_dec i (redoTargets ops)) as [Hin | Hn]; auto.
    assert (Ht : is_open_undo_of ops user (OpUndo tgt ts user i) = true)
      by (apply is_open_undo_of_iff; eauto).
    congruence.
  - intros Hin. apply not_true_is_false. intros H.
    apply is_open_undo_of_iff in H. destruct H as (a & b & c & Heq & Hn).
    inversion Heq; subst. contradiction.
Qed.

(** X3. [getLastUndoByUser] returns [null] exactly when every undo of the
    user in the log is named by some redo; it returns [i] exactly when the
    log splits at an undo of the user with id [i] that no redo names and
    after which every undo of the user is named by a redo. *)
Theorem getLastUndoByUser_spec (st : DrawingState) (user : string) :
  (getLastUndoByUser st user = None <->
   forall tgt ts i, In (OpUndo tgt ts user i) (operations st) ->
                    In i (redoTargets (operations st))) /\
  (forall i,
     getLastUndoByUser st user = Some i <->
     exists before tgt ts after,
       operations st = before ++ OpUndo tgt ts user i :: after /\
       ~ In i (redoTargets (operations st)) /\
       forall tgt' ts' i', In (OpUndo tgt' ts' user i') after ->
                           In i' (redoTargets (operations st))).
Proof.
  unfold getLastUndoByUser.
  set (ops := operations st).
  split.
  - destruct (last_opt (filter (is_open_undo_of ops user) ops)) as [op |] eqn:E.
    + apply last_opt_In, filter_In in E. destruct E as [Hin Hp].
      apply is_open_undo_of_iff in Hp. destruct Hp as (tgt & ts & i & -> & Hn).
      simpl. split; [discriminate |]. intros H. exfalso. eauto.
    + split; auto. intros _ tgt ts i Hin.
      apply last_opt_none in E.
      apply (is_open_undo_of_false ops user tgt ts i).
      exact (proj1 (filter_nil_iff _ _) E _ Hin).
  - intros i. split.
    + destruct (last_opt (filter (is_open_undo_of ops user) ops)) as [op |] eqn:E;
        [| discriminate].
      apply last_opt_filter_some in E.
      destruct E as (l1 & l2 & Hl & Hp & Hall).
      apply is_open_undo_of_iff in Hp. destruct Hp as (tgt & ts & j & -> & Hn).
      simpl. intros H. inversion H; subst j.
      exists l1, tgt, ts, l2. repeat split; auto.
      intros tgt' ts' i' Hin.
      apply (is_open_undo_of_false ops user tgt' ts' i'). now apply Hall.
    + intros (l1 & tgt & ts & l2 & Hl & Hn & Hall).
      assert (E : last_opt (filter (is_open_undo_of ops user) ops)
                  = Some (OpUndo tgt ts user i)).
      { apply last_opt_filter_some. exists l1, l2. split; auto.
        split; [apply is_open_undo_of_iff; eauto |].
        intros op Hin.
        destruct (is_open_undo_of ops user op) eqn:Eo; auto.
        apply is_open_undo_of_iff in Eo.
        destruct Eo as (tgt' & ts' & i' & -> & Hn').
        exfalso. apply Hn'. eapply Hall; eauto. }
      now rewrite E.
Qed.

Lemma getLastUndoByUser_open st user i :
  getLastUndoByUser st user = Some i ->
  exists tgt ts, In (OpUndo tgt ts user i) (operations st) /\
                 ~ In i (redoTargets (operations st)).
Proof.
  unfold getLastUndoByUser.
  destruct (last_opt (filter (is_open_undo_of (operations st) user)
                             (operations st))) as [op |] eqn:E; [| discriminate].
  apply last_opt_In, filter_In in E. destruct E as [Hin Hp].
  apply is_open_undo_of_iff in Hp. destruct Hp as (tgt & ts & j & -> & Hn).
  simpl. intros H. inversion H; subst. eauto.
Qed.

(** An undo that no redo names keeps its stroke hidden. *)
Lemma open_undo_hides st tgt ts us i :
  wf_state st ->
  In (OpUndo tgt ts us i) (operations st) ->
  ~ In i (redoTargets (operations st)) ->
  isStrokeVisible st tgt = false.
Proof.
  intros Hwf Hin Hn. rewrite isStrokeVisible_counts. apply Nat.leb_gt.
  set (ops := operations st) in *.
  set (U := undoIds (filter (undo_targets tgt) ops)).
  set (R := redoTargets (filter (redo_counts ops tgt) ops)).
  assert (HiU : In i U).
  { apply (In_undoIds _ tgt ts us i). apply filter_In. split; auto.
    simpl. apply String.eqb_refl. }
  assert (Hincl : incl R (remove string_dec i U)).
  { intros t Ht.
    assert (Hti : t <> i).
    { intros ->. apply Hn. eapply redoTargets_filter_In; eauto. }
    apply in_in_remove; auto.
    destruct (redoTargets_In _ _ Ht) as (ts' & us' & j & Hin').
    apply filter_In in Hin'. destruct Hin' as [_ Hc]. simpl in Hc.
    destruct (undoTarget ops t) as [s |] eqn:E; [| discriminate].
    apply String.eqb_eq in Hc. subst s.
    destruct (undoTarget_Some_In _ _ _ E) as (ts'' & us'' & Hin'').
    apply (In_undoIds _ tgt ts'' us'' t).
    apply filter_In. split; auto. simpl. apply String.eqb_refl. }
  assert (Hlen : List.length R <= List.length (remove string_dec i U)).
  { apply NoDup_incl_length; auto.
    apply redoTargets_filter_NoDup, (wf_redo_nodup _ Hwf). }
  pose proof (remove_length_lt string_dec U i HiU) as Hlt.
  unfold U, R in *.
  rewrite length_undoIds_filter in Hlt.
  rewrite length_redoTargets_filter in Hlen. lia.
Qed.

(** X4. In a reachable state, what [getLastUndoByUser] returns is the id of
    an undo whose stroke is hidden, and [redoStroke] on it is accepted,
    whoever asks, and makes that stroke visible. *)
Theorem getLastUndoByUser_redoable (st : DrawingState) (user i : string) :
  reachable st ->
  getLastUndoByUser st user = Some i ->
  exists tgt,
    undoTarget (operations st) i = Some tgt /\
    isStrokeVisible st tgt = false /\
    forall user' rid now,
      fst (redoStroke st user' i rid now) = true /\
      isStrokeVisible (snd (redoStroke st user' i rid now)) tgt = true.
Proof.
  intros Hr Hg. pose proof (reachable_wf st Hr) as Hwf.
  destruct (getLastUndoByUser_open _ _ _ Hg) as (tgt & ts & Hin & Hn).
  assert (Ht : undoTarget (operations st) i = Some tgt).
  { eapply undoTarget_of_In; eauto. apply (wf_undo_nodup _ Hwf). }
  exists tgt. split; auto. split.
  - eapply open_undo_hides; eauto.
  - intros user' rid now. now apply redo_restores.
Qed.

Lemma getLastUndoByUser_redoable_witness :
  reachable sample_state /\
  getLastUndoByUser sample_state "a1" = Some "u1" /\
  getLastUndoByUser sample_state "a2" = None /\
  exists tgt,
    undoTarget (operations sample_state) "u1" = Some tgt /\
    isStrokeVisible sample_state tgt = false /\
    forall user' rid now,
      fst (redoStroke sample_state user' "u1" rid now) = true /\
      isStrokeVisible (snd (redoStroke sample_state user' "u1" rid now)) tgt
      = true.
Proof.
  split; [exact sample_reachable |].
  split; [reflexivity |]. split; [reflexivity |].
  exact (getLastUndoByUser_redoable sample_state "a1" "u1"
           sample_reachable eq_refl).
Defined.

Lemma last_open_undo_snoc strokes' ops user tgt newId now :
  ~ In newId (redoTargets ops) ->
  getLastUndoByUser (mkState strokes' (ops ++ [OpUndo tgt now user newId])) user
  = Some newId.
Proof.
  intros Hn. unfold getLastUndoByUser. cbn [operations].
  rewrite filter_app.
  assert (Ho : is_open_undo_of (ops ++ [OpUndo tgt now user newId])
                               user (OpUndo tgt now user newId) = true).
  { apply is_open_undo_of_iff. exists tgt, now, newId. split; auto.
    rewrite redoTargets_app. simpl. now rewrite app_nil_r. }
  cbn [filter]. rewrite Ho, last_opt_snoc. reflexivity.
Qed.

(** X5. Right after an accepted undo (with an id no redo names),
    [getLastUndoByUser] of the undoing user is that undo. *)
Theorem getLastUndoByUser_after_undo (st : DrawingState)
    (user tgt newId : string) (now : Z) :
  ~ In newId (redoTargets (operations st)) ->
  fst (undoStroke st user tgt newId now) = Some newId ->
  getLastUndoByUser (snd (undoStroke st user tgt newId now)) user = Some newId.
Proof.
  intros Hn Hacc.
  destruct (undoStroke_accepted_inv _ _ _ _ _ Hacc) as (_ & _ & ->).
  cbn [snd]. now apply last_open_undo_snoc.
Qed.

Lemma getLastUndoByUser_after_undo_witness :
  ~ In "u1" (redoTargets (operations (run emptyState (firstn 5 sample_cmds)))) /\
  getLastUndoByUser sample_state "a1" = Some "u1".
Proof.
  assert (Hn : ~ In "u1" (redoTargets
                            (operations (run emptyState (firstn 5 sample_cmds)))))
    by (vm_compute; tauto).
  split; [exact Hn |].
  exact (getLastUndoByUser_after_undo (run emptyState (firstn 5 sample_cmds))
           "a1" "s2" "u1" 3%Z Hn eq_refl).
Defined.

(** X6. In a reachable state, the stroke [getLastVisibleStrokeByUser]
    returns can be undone: [undoStroke] on it is accepted, whoever asks. *)
Theorem getLastVisibleStrokeByUser_undoable (st : DrawingState)
    (user i : string) :
  reachable st ->
  getLastVisibleStrokeByUser st user = Some i ->
  forall user' newId now,
    undoStroke st user' i newId now
    = (Some newId,
       mkState (strokes st) (operations st ++ [OpUndo i now user' newId])).
Proof.
  intros Hr Hg user' newId now. pose proof (reachable_wf st Hr) as Hwf.
  rewrite (getLastVisibleStrokeByUser_store st user Hwf) in Hg.
  destruct (last_opt (filter (undo_candidate st user) (strokes st)))
    as [[k s] |] eqn:E; [| discriminate].
  simpl in Hg. inversion Hg; subst k.
  apply last_opt_In, filter_In in E. destruct E as [Hin Hc].
  apply undo_candidate_iff in Hc. destruct Hc as (Hv & _ & _).
  unfold undoStroke.
  rewrite (map_get_of_In _ _ _ (wf_store_nodup _ Hwf) Hin), Hv.
  reflexivity.
Qed.

Lemma getLastVisibleStrokeByUser_undoable_witness :
  reachable sample_state /\
  getLastVisibleStrokeByUser sample_state "a1" = Some "s1" /\
  fst (undoStroke sample_state "a2" "s1" "u2" 7) = Some "u2".
Proof.
  split; [exact sample_reachable |]. split; [reflexivity |].
  now rewrite (getLastVisibleStrokeByUser_undoable sample_state "a1" "s1"
                 sample_reachable eq_refl "a2" "u2" 7%Z).
Defined.

(** ** A new stroke goes on top *)

Lemma map_set_absent k v m :
  map_get k m = None -> map_set k v m = m ++ [(k, v)].
Proof.
  induction m as [| [k0 v0] m IH]; simpl; [reflexivity |].
  destruct (String.eqb k0 k); [discriminate |].
  intros H. now rewrite IH.
Qed.

Lemma undoTargetsOf_In ops tgt :
  In tgt (undoTargetsOf ops) -> exists ts us i, In (OpUndo tgt ts us i) ops.
Proof.
  induction ops as [| op ops IH]; simpl; [easy |].
  destruct op as [s ts us | t ts us i' | t ts us i']; simpl.
  - intros H. destruct (IH H) as (a & b & c & Hin). eauto 6.
  - intros [-> | H]; [eauto 6 |]. destruct (IH H) as (a & b & c & Hin). eauto 6.
  - intros H. destruct (IH H) as (a & b & c & Hin). eauto 6.
Qed.

Lemma In_undoTargetsOf ops tgt ts us i :
  In (OpUndo tgt ts us i) ops -> In tgt (undoTargetsOf ops).
Proof.
  induction ops as [| op ops IH]; simpl; [easy |].
  intros [-> | Hin]; [now left |].
  destruct op; simpl; auto.
Qed.

Lemma count_undo_targets_zero ops k :
  ~ In k (undoTargetsOf ops) -> count (undo_targets k) ops = 0.
Proof.
  intros Hn. unfold count.
  rewrite (proj2 (filter_nil_iff (undo_targets k) ops)); [reflexivity |].
  intros [s ts us | tgt ts us i | tgt ts us i] Hin; simpl; auto.
  destruct (String.eqb_spec tgt k) as [-> | Hne]; auto.
  exfalso. apply Hn. eapply In_undoTargetsOf; eauto.
Qed.

(** A stroke that no undo targets is visible. *)
Lemma untargeted_visible st k :
  ~ In k (undoTargetsOf (operations st)) -> isStrokeVisible st k = true.
Proof.
  intros Hn. rewrite isStrokeVisible_counts, count_undo_targets_zero by assumption.
  reflexivity.
Qed.

Lemma undoTargetsOf_in_ids st k :
  In k (undoTargetsOf (operations st)) -> In k (ids_of_state st).
Proof.
  intros H. unfold ids_of_state. apply in_or_app. right.
  destruct (undoTargetsOf_In _ _ H) as (ts & us & i & Hin).
  apply in_flat_map. eexists; split; [eassumption | simpl; auto].
Qed.

(** A stroke operation at the end of the log changes no visibility. *)
Lemma visible_after_stroke_op st sid now user k strokes' :
  isStrokeVisible (mkState strokes' (operations st ++ [OpStroke sid now user])) k
  = isStrokeVisible st k.
Proof.
  rewrite !isStrokeVisible_counts. simpl.
  destruct (counts_snoc (operations st) (OpStroke sid now user) k) as [-> ->];
    [intros; discriminate |].
  simpl. now rewrite !Nat.add_0_r.
Qed.

(** X7. In a reachable state, [createStroke] (with an unused id) returns an
    empty, incomplete stroke that [getStroke] then finds, and the list of
    visible strokes becomes the old list followed by the new stroke. *)
Theorem createStroke_on_top (st : DrawingState) (user : string) (tl : Tool)
    (col : string) (w : float) (newId : string) (now : Z) :
  reachable st ->
  fresh st (CreateStroke user tl col w newId now) = true ->
  fst (createStroke st user tl col w newId now)
  = mkStroke newId user tl col w [] false /\
  getStroke (snd (createStroke st user tl col w newId now)) newId
  = Some (fst (createStroke st user tl col w newId now)) /\
  getVisibleStrokes (snd (createStroke st user tl col w newId now))
  = getVisibleStrokes st ++ [fst (createStroke st user tl col w newId now)].
Proof.
  intros Hr Hf. pose proof (reachable_wf st Hr) as Hwf.
  pose proof (step_wf st _ Hwf Hf) as Hwf'. simpl in Hwf'.
  split; [reflexivity |]. split.
  - unfold getStroke. simpl. apply map_get_set_same.
  - unfold createStroke. cbn [snd fst].
    rewrite (getVisibleStrokes_unsorted _ Hwf'),
      (getVisibleStrokes_unsorted _ Hwf).
    cbn [strokes].
    rewrite map_set_absent by (eapply fresh_not_key; eauto).
    rewrite filter_app, map_app. f_equal.
    + f_equal. apply filter_ext. intros [k s]. simpl.
      apply visible_after_stroke_op.
    + cbn [filter fst]. rewrite visible_after_stroke_op.
      rewrite untargeted_visible; [reflexivity |].
      intros H. apply (fresh_generated _ _ _ Hf eq_refl).
      now apply undoTargetsOf_in_ids.
Qed.

Lemma createStroke_on_top_witness :
  reachable sample_state /\
  map id (getVisibleStrokes
            (snd (createStroke sample_state "a2" brush "#00ff00" 3 "s3" 8)))
  = ["s1"; "s3"].
Proof.
  split; [exact sample_reachable |].
  rewrite (proj2 (proj2 (createStroke_on_top sample_state "a2" brush "#00ff00"
                           3 "s3" 8%Z sample_reachable eq_refl))).
  reflexivity.
Defined.

(** ** Invariants of the log *)

Lemma map_set_keys_incl k v m k' :
  In k' (map fst m) -> In k' (map fst (map_set k v m)).
Proof.
  induction m as [| [k0 v0] m IH]; simpl; [tauto |].
  destruct (String.eqb k0 k); simpl; tauto.
Qed.

Lemma undoTargetsOf_app l1 l2 :
  undoTargetsOf (l1 ++ l2) = undoTargetsOf l1 ++ undoTargetsOf l2.
Proof.
  induction l1 as [| op l1 IH]; simpl; auto.
  destruct op; simpl; now rewrite ?IH.
Qed.

Lemma step_undo_targets st c :
  incl (undoTargetsOf (operations st)) (map fst (strokes st)) ->
  incl (undoTargetsOf (operations (step st c))) (map fst (strokes (step st c))).
Proof.
  intros H.
  destruct c as [u tl col w i now | sid pts lim | sid | u tgt i now | u tgt i now];
    simpl.
  - rewrite undoTargetsOf_app. simpl. rewrite app_nil_r.
    intros k Hk. apply map_set_keys_incl. auto.
  - unfold appendPoints. destruct (map_get sid (strokes st)) as [s0 |]; simpl; auto.
    destruct (List.length pts <=? lim)%nat; simpl; auto.
    intros k Hk. apply map_set_keys_incl. auto.
  - unfold completeStroke. destruct (map_get sid (strokes st)) as [s0 |]; simpl; auto.
    intros k Hk. apply map_set_keys_incl. auto.
  - unfold undoStroke. destruct (map_get tgt (strokes st)) as [s0 |] eqn:E; simpl; auto.
    destruct (isStrokeVisible st tgt); simpl; auto.
    rewrite undoTargetsOf_app. simpl. apply incl_app; auto.
    intros k [<- | []].
    destruct (in_dec string_dec tgt (map fst (strokes st))) as [Hin | Hn]; auto.
    apply map_get_none_iff in Hn. congruence.
  - unfold redoStroke.
    destruct (find (is_undo_with_id tgt) (operations st)); simpl; auto.
    destruct (existsb (is_redo_of tgt) (operations st)); simpl; auto.
    rewrite undoTargetsOf_app. simpl. now rewrite app_nil_r.
Qed.

Lemma run_undo_targets cs : forall st,
  incl (undoTargetsOf (operations st)) (map fst (strokes st)) ->
  incl (undoTargetsOf (operations (run st cs))) (map fst (strokes (run st cs))).
Proof.
  unfold run. induction cs as [| c cs IH]; intros st H; simpl; auto.
  apply IH. now apply step_undo_targets.
Qed.

(** X8. The log of a reachable state is referentially sound: undo ids are
    distinct; every undo targets a stroke of the store; every redo names an
    undo of the log; and no two redos name the same undo. *)
Theorem log_references_sound (st : DrawingState) :
  reachable st ->
  NoDup (undoIds (operations st)) /\
  (forall tgt ts us i, In (OpUndo tgt ts us i) (operations st) ->
     exists s, getStroke st tgt = Some s) /\
  (forall t ts us i, In (OpRedo t ts us i) (operations st) ->
     exists tgt, undoTarget (operations st) t = Some tgt) /\
  NoDup (redoTargets (operations st)).
Proof.
  intros Hr. pose proof (reachable_wf st Hr) as Hwf.
  destruct Hr as (cs & Hf & <-).
  split; [apply (wf_undo_nodup _ Hwf) |]. split; [| split].
  - intros tgt ts us i Hin.
    assert (Hk : In tgt (map fst (strokes (run emptyState cs)))).
    { apply (run_undo_targets cs emptyState); [simpl; intros ? [] |].
      eapply In_undoTargetsOf; eauto. }
    unfold getStroke.
    destruct (map_get tgt (strokes (run emptyState cs))) as [s |] eqn:E; eauto.
    apply map_get_none_iff in E. contradiction.
  - intros t ts us i Hin.
    assert (Ht : In t (undoIds (operations (run emptyState cs)))).
    { apply (wf_redo_resolved _ Hwf). eapply In_redoTargets; eauto. }
    destruct (undoIds_In _ _ Ht) as (tgt & ts' & us' & Hin').
    exists tgt. eapply undoTarget_of_In; eauto. apply (wf_undo_nodup _ Hwf).
  - apply (wf_redo_nodup _ Hwf).
Qed.

Lemma log_references_sound_witness :
  reachable sample_state /\
  exists s, getStroke sample_state "s2" = Some s.
Proof.
  split; [exact sample_reachable |].
  apply (proj1 (proj2 (log_references_sound sample_state sample_reachable))
               "s2" 3%Z "a1" "u1").
  vm_compute. tauto.
Defined.

(** X9. In a reachable state the two counters of a stroke differ by at most
    one: the stroke is visible exactly when they are equal and hidden
    exactly when there is one more undo than redos. *)
Theorem visible_iff_balanced (st : DrawingState) (sid : string) :
  reachable st ->
  (isStrokeVisible st sid = true <->
   undoCount (operations st) sid = redoCount (operations st) sid) /\
  (isStrokeVisible st sid = false <->
   undoCount (operations st) sid = S (redoCount (operations st) sid)).
Proof.
  intros Hr. pose proof (reachable_wf st Hr) as Hwf.
  pose proof (wf_balance _ Hwf sid) as Hb.
  pose proof (wf_redo_le_undo st sid Hwf) as Hle.
  unfold undoCount. rewrite redoCount_code by apply (wf_undo_nodup _ Hwf).
  rewrite isStrokeVisible_counts, Nat.leb_le, Nat.leb_gt. lia.
Qed.

Lemma visible_iff_balanced_witness :
  reachable sample_state /\
  undoCount (operations sample_state) "s2"
  = S (redoCount (operations sample_state) "s2").
Proof.
  split; [exact sample_reachable |].
  now apply (proj2 (visible_iff_balanced sample_state "s2" sample_reachable)).
Defined.

(** X10. An id that is not a key of the store counts as visible for
    [isStrokeVisible] in every reachable state (no existence check is made
    there); [undoStroke] rejects it all the same, and [getVisibleStrokes]
    returns no stroke bearing it. *)
Theorem unknown_stroke_edge (st : DrawingState) (k : string) :
  reachable st ->
  getStroke st k = None ->
  isStrokeVisible st k = true /\
  (forall user newId now, undoStroke st user k newId now = (None, st)) /\
  (forall s, In s (getVisibleStrokes st) -> id s <> k).
Proof.
  intros Hr Hg. pose proof (reachable_wf st Hr) as Hwf.
  unfold getStroke in Hg. split; [| split].
  - apply untargeted_visible. intros H.
    destruct Hr as (cs & Hf & <-).
    apply (run_undo_targets cs emptyState) in H; [| simpl; intros ? []].
    apply map_get_none_iff in Hg. contradiction.
  - intros user newId now. unfold undoStroke. now rewrite Hg.
  - intros s Hin Heq. rewrite (getVisibleStrokes_unsorted _ Hwf) in Hin.
    apply in_map_iff in Hin. destruct Hin as ([k' s'] & Hs & Hin).
    simpl in Hs. subst s'. apply filter_In in Hin. destruct Hin as [Hin _].
    rewrite (wf_key_id _ Hwf _ _ Hin) in Heq. subst k'.
    apply map_get_none_iff in Hg. apply Hg.
    apply in_map_iff. now exists (k, s).
Qed.

Lemma unknown_stroke_edge_witness :
  reachable sample_state /\ getStroke sample_state "nowhere" = None /\
  isStrokeVisible sample_state "nowhere" = true.
Proof.
  split; [exact sample_reachable |]. split; [reflexivity |].
  exact (proj1 (unknown_stroke_edge sample_state "nowhere"
                  sample_reachable eq_refl)).
Defined.

(** ** C2: interleaving two calls *)









(** ** C8: unmatched undos never pile up *)

Lemma fresh_run_app cs1 : forall st cs2,
  fresh_run st (cs1 ++ cs2) = fresh_run st cs1 && fresh_run (run st cs1) cs2.
Proof.
  unfold run. induction cs1 as [| c cs1 IH]; intros st cs2; simpl; [reflexivity |].
  now rewrite IH, andb_assoc.
Qed.

Lemma run_app st cs1 cs2 : run st (cs1 ++ cs2) = run (run st cs1) cs2.
Proof. unfold run. apply fold_left_app. Qed.

Lemma effect_if_short p c : effect_if p c = [] \/ exists x, effect_if p c = [x].
Proof.
  destruct p; [| now left]. destruct c; simpl; eauto.
Qed.

(** Every prefix of the log of a reachable state is the log of a reachable
    state. *)
Lemma reachable_prefix st :
  reachable st ->
  forall l1 l2, operations st = l1 ++ l2 ->
  exists st', reachable st' /\ operations st' = l1.
Proof.
  intros (cs & Hf & <-). revert Hf.
  induction cs as [| c cs IH] using rev_ind; intros Hf l1 l2 Hops.
  - simpl in Hops. symmetry in Hops. apply app_eq_nil in Hops.
    destruct Hops as [-> _]. exists emptyState. split; [| reflexivity].
    exists []. now split.
  - rewrite fresh_run_app in Hf. apply andb_true_iff in Hf.
    destruct Hf as [Hf Hc]. simpl in Hc. rewrite andb_true_r in Hc.
    rewrite run_app in Hops. simpl in Hops. rewrite step_log in Hops.
    destruct (effect_if_short (accepted (run emptyState cs) c) c) as [E | [x E]];
      rewrite E in Hops.
    + rewrite app_nil_r in Hops. eauto.
    + destruct l2 as [| y l2 _] using rev_ind.
      * rewrite app_nil_r in Hops.
        exists (run emptyState (cs ++ [c])). split.
        -- exists (cs ++ [c]). split; [| reflexivity].
           rewrite fresh_run_app, Hf. simpl. now rewrite Hc.
        -- rewrite run_app. simpl. now rewrite step_log, E.
      * rewrite app_assoc in Hops. apply app_inj_tail in Hops.
        destruct Hops as [Hops _]. eauto.
Qed.

Lemma undoTarget_app_stable l ext t x :
  undoTarget l t = Some x -> undoTarget (l ++ ext) t = Some x.
Proof.
  unfold undoTarget. rewrite find_app_undo.
  destruct (find (is_undo_with_id t) l); [auto | discriminate].
Qed.

(** The redos of a well-formed log are counted alike when the log is
    extended. *)
Lemma redo_counts_stable st ext sid :
  wf_state st ->
  count (redo_counts (operations st ++ ext) sid) (operations st)
  = count (redo_counts (operations st) sid) (operations st).
Proof.
  intros Hwf. apply count_ext_in.
  intros [s ts us | tgt ts us i | tgt ts us i] Hin; simpl; auto.
  assert (Ht : In tgt (undoIds (operations st))).
  { apply (wf_redo_resolved _ Hwf). eapply In_redoTargets; eauto. }
  destruct (undoIds_In _ _ Ht) as (tgt0 & ts' & us' & Hin').
  pose proof (undoTarget_of_In _ _ _ _ _ (wf_undo_nodup _ Hwf) Hin') as Hu.
  now rewrite (undoTarget_app_stable _ ext _ _ Hu), Hu.
Qed.

Lemma count_pos_In {A} (p : A -> bool) (l : list A) :
  0 < count p l -> exists x, In x l /\ p x = true.
Proof.
  unfold count. destruct (filter p l) as [| x r] eqn:E; simpl; [lia |].
  intros _. exists x. apply filter_In. rewrite E. now left.
Qed.

(** Between two undos of one stroke the log holds a redo of an undo of that
    stroke. *)
Lemma redo_between_undos st sid l1 l2 l3 ts1 us1 i1 ts2 us2 i2 :
  reachable st ->
  operations st
  = l1 ++ OpUndo sid ts1 us1 i1 :: l2 ++ OpUndo sid ts2 us2 i2 :: l3 ->
  exists t ts us i,
    In (OpRedo t ts us i) l2 /\ undoTarget (operations st) t = Some sid.
Proof.
  intros Hr Hops.
  set (ext := OpUndo sid ts1 us1 i1 :: l2 ++ [OpUndo sid ts2 us2 i2]).
  assert (Hsplit : operations st = (l1 ++ ext) ++ l3).
  { rewrite Hops. unfold ext. rewrite <- app_assoc. simpl.
    now rewrite <- app_assoc. }
  destruct (reachable_prefix st Hr _ _ Hsplit) as (st2 & Hr2 & Hops2).
  destruct (reachable_prefix st2 Hr2 l1 ext Hops2) as (st1 & Hr1 & Hops1).
  pose proof (reachable_wf _ Hr1) as Hwf1.
  pose proof (reachable_wf _ Hr2) as Hwf2.
  pose proof (wf_balance _ Hwf2 sid) as Hbal.
  pose proof (wf_redo_le_undo st1 sid Hwf1) as Hle.
  rewrite Hops2 in Hbal. rewrite Hops1 in Hle.
  rewrite !count_app in Hbal.
  pose proof (redo_counts_stable st1 ext sid Hwf1) as Hst.
  rewrite Hops1 in Hst. rewrite Hst in Hbal.
  unfold ext in Hbal at 1 3.
  change (OpUndo sid ts1 us1 i1 :: l2 ++ [OpUndo sid ts2 us2 i2])
    with ([OpUndo sid ts1 us1 i1] ++ l2 ++ [OpUndo sid ts2 us2 i2]) in Hbal.
  rewrite !count_app in Hbal.
  assert (Hu1 : count (undo_targets sid) [OpUndo sid ts1 us1 i1] = 1)
    by (unfold count; simpl; now rewrite String.eqb_refl).
  assert (Hu2 : count (undo_targets sid) [OpUndo sid ts2 us2 i2] = 1)
    by (unfold count; simpl; now rewrite String.eqb_refl).
  rewrite Hu1, Hu2 in Hbal.
  change (count (redo_counts (l1 ++ ext) sid) [OpUndo sid ts1 us1 i1])
    with 0 in Hbal.
  change (count (redo_counts (l1 ++ ext) sid) [OpUndo sid ts2 us2 i2])
    with 0 in Hbal.
  assert (Hpos : 0 < count (redo_counts (l1 ++ ext) sid) l2) by lia.
  destruct (count_pos_In _ _ Hpos) as (x & Hin & Hx).
  destruct x as [s ts us | t ts us i | t ts us i]; simpl in Hx; try discriminate.
  exists t, ts, us, i. split; [assumption |].
  destruct (undoTarget (l1 ++ ext) t) as [tgt |] eqn:E; [| discriminate].
  apply String.eqb_eq in Hx. subst tgt.
  rewrite Hsplit. now apply undoTarget_app_stable.
Qed.

(** C8 (as the code has it). In every reachable state a stroke has at most
    one more undo than redos. While it is hidden, a further [undoStroke] on
    it is rejected, and the log holds an undo of it that a single
    [redoStroke] consumes to make the stroke visible again. Where the log
    holds two undos of one stroke, it holds between them a redo of an undo
    of that stroke. *)
Theorem one_redo_restores (st : DrawingState) (sid : string) :
  reachable st ->
  undoCount (operations st) sid <= S (redoCount (operations st) sid) /\
  (isStrokeVisible st sid = false ->
   (forall user newId now,
       undoStroke st user sid newId now = (None, st)) /\
   exists u,
     In u (undoIds (operations st)) /\
     forall user newId now,
       fst (redoStroke st user u newId now) = true /\
       isStrokeVisible (snd (redoStroke st user u newId now)) sid = true) /\
  (forall l1 l2 l3 ts1 us1 i1 ts2 us2 i2,
      operations st
      = l1 ++ OpUndo sid ts1 us1 i1 :: l2 ++ OpUndo sid ts2 us2 i2 :: l3 ->
      exists t ts us i,
        In (OpRedo t ts us i) l2 /\ undoTarget (operations st) t = Some sid).
Proof.
  intros Hr. pose proof (reachable_wf st Hr) as Hwf.
  split; [now apply wf_counts_bounded |]. split.
  - intros Hv. split.
    + intros user newId now. unfold undoStroke. rewrite Hv. simpl.
      now destruct (map_get sid (strokes st)).
    + destruct (hidden_has_open_undo st sid Hwf Hv) as (u & Hu & Hn).
      exists u. split.
      * destruct (undoTarget_Some_In _ _ _ Hu) as (ts & us & Hin).
        eapply In_undoIds; eauto.
      * intros user newId now. now apply redo_restores.
  - intros l1 l2 l3 ts1 us1 i1 ts2 us2 i2 Hops.
    eapply redo_between_undos; eauto.
Qed.

Lemma one_redo_restores_witness :
  (reachable sample_state /\
   isStrokeVisible sample_state "s2" = false /\
   undoStroke sample_state "a2" "s2" "u2" 4 = (None, sample_state) /\
   isStrokeVisible (snd (redoStroke sample_state "a2" "u1" "r1" 5)) "s2" = true) /\
  (reachable hidden_again_state /\
   operations hidden_again_state
   = [OpStroke "s1" 1 "a1"] ++ OpUndo "s1" 2 "a1" "u1"
       :: [OpRedo "u1" 3 "a1" "r1"] ++ OpUndo "s1" 4 "a2" "u2" :: [] /\
   exists t ts us i,
     In (OpRedo t ts us i) [OpRedo "u1" 3 "a1" "r1"] /\
     undoTarget (operations hidden_again_state) t = Some "s1").
Proof.
  assert (Hr : reachable hidden_again_state).
  { exists [ CreateStroke "a1" brush "#000000" 4 "s1" 1;
             UndoStroke "a1" "s1" "u1" 2;
             RedoStroke "a1" "u1" "r1" 3;
             UndoStroke "a2" "s1" "u2" 4 ].
    split; reflexivity. }
  split.
  - split; [exact sample_reachable |].
    split; [reflexivity |].
    split.
    + exact (proj1 (proj1 (proj2 (one_redo_restores sample_state "s2"
                                    sample_reachable))
                          eq_refl) "a2" "u2" 4%Z).
    + reflexivity.
  - split; [exact Hr |]. split; [reflexivity |].
    exact (proj2 (proj2 (one_redo_restores hidden_again_state "s1" Hr))
             [OpStroke "s1" 1 "a1"] [OpRedo "u1" 3 "a1" "r1"] []
             2%Z "a1" "u1" 4%Z "a2" "u2" eq_refl).
Defined.

(** C8, as stated, fails. Concretely, once [a1] has undone [s2] the undo of
    [s2] by [a2] is rejected, so no second undo accumulates; and in general
    no sequence of accepted calls reaches a state where some stroke has two
    more undos than redos, nor one where a hidden stroke stays hidden after
    every possible single [redoStroke]. *)
Lemma two_redos_never_required :
  undoStroke sample_state "a2" "s2" "u2" 4 = (None, sample_state) /\
  ~ (exists cs sid,
        fresh_run emptyState cs = true /\
        all_accepted emptyState cs = true /\
        S (S (redoCount (operations (run emptyState cs)) sid))
        <= undoCount (operations (run emptyState cs)) sid) /\
  ~ (exists cs sid,
        fresh_run emptyState cs = true /\
        all_accepted emptyState cs = true /\
        isStrokeVisible (run emptyState cs) sid = false /\
        forall user u newId now,
          isStrokeVisible
            (snd (redoStroke (run emptyState cs) user u newId now)) sid
          = false).
Proof.
  split; [reflexivity |]. split.
  - intros (cs & sid & Hf & _ & Hc).
    assert (Hwf : wf_state (run emptyState cs))
      by (apply run_wf; [apply wf_empty | exact Hf]).
    pose proof (wf_counts_bounded _ sid Hwf). lia.
  - intros (cs & sid & Hf & _ & Hv & Hall).
    assert (Hwf : wf_state (run emptyState cs))
      by (apply run_wf; [apply wf_empty | exact Hf]).
    destruct (hidden_has_open_undo _ sid Hwf Hv) as (u & Hu & Hn).
    destruct (redo_restores _ sid u "a" "r" 0%Z Hwf Hu Hn) as [_ Hvis].
    rewrite Hall in Hvis. discriminate.
Qed.

(** ** [getFullState] *)

(** X11. In a reachable state the snapshot of [getFullState] is
    self-contained: its strokes are listed in the order of the stroke
    operations of its log, and filtering them by the visibility computed
    from its log alone gives [getVisibleStrokes]. *)
Theorem getFullState_consistent (st : DrawingState) :
  reachable st ->
  map id (fst (getFullState st)) = strokeOrder (snd (getFullState st)) /\
  getVisibleStrokes st
  = filter (fun s => isStrokeVisible (mkState [] (snd (getFullState st))) (id s))
           (fst (getFullState st)).
Proof.
  intros Hr. pose proof (reachable_wf st Hr) as Hwf.
  unfold getFullState. cbn [fst snd]. split.
  - rewrite <- (wf_keys _ Hwf), map_map. apply map_ext_in.
    intros [k s] Hin. simpl. now apply (wf_key_id _ Hwf).
  - rewrite (getVisibleStrokes_unsorted _ Hwf), filter_map_snd. f_equal.
    apply filter_ext_in. intros [k s] Hin. simpl.
    rewrite (wf_key_id _ Hwf _ _ Hin). reflexivity.
Qed.

Lemma getFullState_consistent_witness :
  reachable sample_state /\
  map id (fst (getFullState sample_state)) = ["s1"; "s2"] /\
  strokeOrder (snd (getFullState sample_state)) = ["s1"; "s2"].
Proof.
  split; [exact sample_reachable |].
  rewrite (proj1 (getFullState_consistent sample_state sample_reachable)).
  split; reflexivity.
Defined.

(** * Rooms and users *)

Section StringMapFacts.
Context {V : Type}.
Implicit Types (m : list (string * V)) (k : string) (v : V).

Lemma smap_get_set_same k v m : smap_get k (smap_set k v m) = Some v.
Proof.
  induction m as [| [k' v'] m IH]; simpl.
  - now rewrite String.eqb_refl.
  - destruct (String.eqb k' k) eqn:E; simpl; rewrite E; auto.
Qed.

Lemma smap_get_set_other k k' v m :
  k' <> k -> smap_get k' (smap_set k v m) = smap_get k' m.
Proof.
  intros Hne. induction m as [| [k0 v0] m IH]; simpl.
  - destruct (String.eqb_spec k k'); congruence.
  - destruct (String.eqb_spec k0 k) as [-> | Hk]; simpl.
    + destruct (String.eqb_spec k k'); congruence.
    + now rewrite IH.
Qed.

Lemma smap_get_delete_same k m : smap_get k (smap_delete k m) = None.
Proof.
  unfold smap_delete. induction m as [| [k0 v0] m IH]; simpl; auto.
  destruct (String.eqb k0 k) eqn:E; simpl; auto. now rewrite E.
Qed.

Lemma smap_get_delete_other k k' m :
  k' <> k -> smap_get k' (smap_delete k m) = smap_get k' m.
Proof.
  intros Hne. unfold smap_delete.
  induction m as [| [k0 v0] m IH]; simpl; auto.
  destruct (String.eqb_spec k0 k) as [-> | Hk]; simpl.
  - destruct (String.eqb_spec k k'); congruence.
  - now rewrite IH.
Qed.

Lemma smap_delete_absent k m : smap_get k m = None -> smap_delete k m = m.
Proof.
  unfold smap_delete. induction m as [| [k0 v0] m IH]; simpl; auto.
  destruct (String.eqb k0 k); simpl; [discriminate |].
  intros H. now rewrite IH.
Qed.

Lemma smap_delete_set_absent k v m :
  smap_get k m = None -> smap_delete k (smap_set k v m) = m.
Proof.
  induction m as [| [k0 v0] m IH]; simpl.
  - intros _. unfold smap_delete. simpl. now rewrite String.eqb_refl.
  - destruct (String.eqb k0 k) eqn:E; [discriminate |].
    intros H. unfold smap_delete in *. simpl. rewrite E. simpl.
    now rewrite IH.
Qed.

Lemma smap_set_length k v m :
  List.length (smap_set k v m)
  = match smap_get k m with
    | Some _ => List.length m
    | None => S (List.length m)
    end.
Proof.
  induction m as [| [k0 v0] m IH]; simpl; auto.
  destruct (String.eqb k0 k); simpl; auto.
  rewrite IH. now destruct (smap_get k m).
Qed.
End StringMapFacts.

(** ** [Room] *)

(** X12. [addUser] stores the user it returns under the socket id:
    [getUser] finds it, the other sockets keep their users, the count grows
    by one exactly when the socket id was not present (joining again under
    the same socket id replaces the old user), and the room is not empty. *)
Theorem addUser_getUser (r : Rooms.Room) (sock userName : string) (now : Z) :
  Rooms.getUser (snd (Rooms.addUser r sock userName now)) sock
  = Some (fst (Rooms.addUser r sock userName now)) /\
  (forall sock', sock' <> sock ->
     Rooms.getUser (snd (Rooms.addUser r sock userName now)) sock'
     = Rooms.getUser r sock') /\
  Rooms.userCount (snd (Rooms.addUser r sock userName now))
  = match Rooms.getUser r sock with
    | Some _ => Rooms.userCount r
    | None => S (Rooms.userCount r)
    end /\
  Rooms.isEmpty (snd (Rooms.addUser r sock userName now)) = false.
Proof.
  unfold Rooms.getUser, Rooms.userCount, Rooms.isEmpty, Rooms.addUser.
  cbn [fst snd Rooms.users].
  split; [apply smap_get_set_same |].
  split; [intros sock' Hne; now apply smap_get_set_other |].
  rewrite smap_set_length.
  destruct (smap_get sock (Rooms.users r)) as [u |] eqn:E; split; auto.
  destruct (Rooms.users r); [discriminate | reflexivity].
Qed.

(** X13. [removeUser] of a socket id that is not in the room returns [null]
    and leaves the room as it is; otherwise it returns the stored user,
    after which [getUser] no longer finds the socket, the other sockets keep
    their users, and [colorIndex] is not wound back. Removing a user that
    was just added under a new socket id gives back the old user map. *)
Theorem removeUser_spec (r : Rooms.Room) (sock : string) :
  (Rooms.getUser r sock = None -> Rooms.removeUser r sock = (None, r)) /\
  (forall u, Rooms.getUser r sock = Some u ->
     fst (Rooms.removeUser r sock) = Some u /\
     Rooms.getUser (snd (Rooms.removeUser r sock)) sock = None /\
     (forall sock', sock' <> sock ->
        Rooms.getUser (snd (Rooms.removeUser r sock)) sock'
        = Rooms.getUser r sock') /\
     Rooms.colorIndex (snd (Rooms.removeUser r sock)) = Rooms.colorIndex r) /\
  (forall userName now,
     Rooms.getUser r sock = None ->
     Rooms.users (snd (Rooms.removeUser
                         (snd (Rooms.addUser r sock userName now)) sock))
     = Rooms.users r /\
     Rooms.colorIndex (snd (Rooms.removeUser
                              (snd (Rooms.addUser r sock userName now)) sock))
     = S (Rooms.colorIndex r)).
Proof.
  unfold Rooms.getUser, Rooms.removeUser.
  split; [| split].
  - intros H. now rewrite H.
  - intros u H. rewrite H. cbn [fst snd Rooms.users Rooms.colorIndex].
    split; auto. split; [apply smap_get_delete_same |].
    split; auto. intros sock' Hne. now apply smap_get_delete_other.
  - intros userName now H. unfold Rooms.addUser.
    cbn [fst snd Rooms.users Rooms.colorIndex].
    rewrite smap_get_set_same. cbn [fst snd Rooms.users Rooms.colorIndex].
    split; auto. now apply smap_delete_set_absent.
Qed.

Lemma removeUser_spec_witness :
  Rooms.getUser (Rooms.newRoom "main") "sock-1" = None /\
  Rooms.removeUser (Rooms.newRoom "main") "sock-1"
  = (None, Rooms.newRoom "main").
Proof.
  split; [reflexivity |].
  exact (proj1 (removeUser_spec (Rooms.newRoom "main") "sock-1") eq_refl).
Defined.

(** X14. [updateCursor] for a socket id that is not in the room changes
    nothing; otherwise the stored user gets the new cursor and keeps every
    other field, and the other sockets, the user count and [colorIndex] are
    unchanged. *)
Theorem updateCursor_spec (r : Rooms.Room) (sock : string) (cx cy : float) :
  (Rooms.getUser r sock = None -> Rooms.updateCursor r sock cx cy = r) /\
  (forall u, Rooms.getUser r sock = Some u ->
     Rooms.getUser (Rooms.updateCursor r sock cx cy) sock
     = Some (Rooms.mkUser (Rooms.id u) (Rooms.socketId u) (Rooms.name u)
                          (Rooms.color u) (Some (Rooms.mkCursor cx cy))
                          (Rooms.joinedAt u))) /\
  (forall sock', sock' <> sock ->
     Rooms.getUser (Rooms.updateCursor r sock cx cy) sock'
     = Rooms.getUser r sock') /\
  Rooms.userCount (Rooms.updateCursor r sock cx cy) = Rooms.userCount r /\
  Rooms.colorIndex (Rooms.updateCursor r sock cx cy) = Rooms.colorIndex r.
Proof.
  unfold Rooms.getUser, Rooms.updateCursor, Rooms.userCount.
  destruct (smap_get sock (Rooms.users r)) as [u0 |] eqn:E.
  - cbn [Rooms.users Rooms.colorIndex].
    split; [discriminate |].
    split; [intros u H; inversion H; subst; apply smap_get_set_same |].
    split; [intros sock' Hne; now apply smap_get_set_other |].
    split; auto. now rewrite smap_set_length, E.
  - split; auto. split; [discriminate |]. auto.
Qed.

Lemma updateCursor_spec_witness :
  Rooms.getUser (Rooms.newRoom "main") "sock-1" = None /\
  Rooms.updateCursor (Rooms.newRoom "main") "sock-1" 3 4 = Rooms.newRoom "main".
Proof.
  split; [reflexivity |].
  exact (proj1 (updateCursor_spec (Rooms.newRoom "main") "sock-1" 3 4) eq_refl).
Defined.

(** ** Colour assignment *)

Lemma addUsers_colors joins : forall r,
  map Rooms.color (fst (Rooms.addUsers r joins))
  = map (fun j => nth ((Rooms.colorIndex r + j) mod 12) Rooms.USER_COLORS "")
        (seq 0 (List.length joins)) /\
  Rooms.colorIndex (snd (Rooms.addUsers r joins))
  = Rooms.colorIndex r + List.length joins.
Proof.
  induction joins as [| [[sock userName] now] joins IH]; intros r.
  - simpl. split; auto.
  - cbn [Rooms.addUsers].
    destruct (Rooms.addUser r sock userName now) as [u r1] eqn:Ea.
    destruct (Rooms.addUsers r1 joins) as [us r2] eqn:Eu.
    specialize (IH r1). rewrite Eu in IH. cbn [fst snd] in *.
    destruct IH as [IH1 IH2].
    assert (Hu : Rooms.color u
                 = nth (Rooms.colorIndex r mod 12) Rooms.USER_COLORS ""
                 /\ Rooms.colorIndex r1 = S (Rooms.colorIndex r)).
    { unfold Rooms.addUser in Ea. inversion Ea; subst. split; reflexivity. }
    destruct Hu as [Hc Hi]. split.
    + cbn [List.length seq map]. rewrite Nat.add_0_r. f_equal; auto.
      rewrite IH1, Hi, <- seq_shift, map_map.
      apply map_ext. intros j. f_equal. f_equal. lia.
    + rewrite IH2, Hi. simpl. lia.
Qed.

Lemma palette_NoDup : NoDup Rooms.USER_COLORS.
Proof.
  unfold Rooms.USER_COLORS.
  repeat (constructor; [simpl; intuition discriminate |]). constructor.
Qed.

(** X15. Colours go round the palette: the [j]-th of a sequence of joins
    gets entry [(colorIndex + j) mod 12] and the counter advances by the
    number of joins; so up to twelve consecutive joins get pairwise distinct
    colours, and a join gets the colour of the join twelve places before
    it. *)
Theorem colors_round_robin (r : Rooms.Room) (joins : list (string * string * Z)) :
  map Rooms.color (fst (Rooms.addUsers r joins))
  = map (fun j => nth ((Rooms.colorIndex r + j) mod 12) Rooms.USER_COLORS "")
        (seq 0 (List.length joins)) /\
  Rooms.colorIndex (snd (Rooms.addUsers r joins))
  = Rooms.colorIndex r + List.length joins /\
  (List.length joins <= 12 ->
   NoDup (map Rooms.color (fst (Rooms.addUsers r joins)))) /\
  (forall j, j + 12 < List.length joins ->
             nth (j + 12) (map Rooms.color (fst (Rooms.addUsers r joins))) ""
             = nth j (map Rooms.color (fst (Rooms.addUsers r joins))) "").
Proof.
  destruct (addUsers_colors joins r) as [Hc Hi].
  split; [exact Hc |]. split; [exact Hi |]. rewrite Hc. split.
  - intros Hlen. apply NoDup_map_NoDup_ForallPairs; [| apply seq_NoDup].
    intros a b Ha Hb Heq. apply in_seq in Ha, Hb.
    assert (Hma : (Rooms.colorIndex r + a) mod 12 < 12)
      by (apply Nat.mod_upper_bound; lia).
    assert (Hmb : (Rooms.colorIndex r + b) mod 12 < 12)
      by (apply Nat.mod_upper_bound; lia).
    pose proof (proj1 (NoDup_nth Rooms.USER_COLORS "") palette_NoDup
                      _ _ Hma Hmb Heq) as Hmod.
    assert (Ha' := Nat.div_mod_eq (Rooms.colorIndex r + a) 12).
    assert (Hb' := Nat.div_mod_eq (Rooms.colorIndex r + b) 12).
    lia.
  - intros j H.
    set (f := fun j0 => nth ((Rooms.colorIndex r + j0) mod 12)
                            Rooms.USER_COLORS "").
    rewrite !(nth_indep _ "" (f 0)) by (rewrite length_map, length_seq; lia).
    rewrite !map_nth, !seq_nth by lia.
    unfold f. rewrite !Nat.add_0_l. f_equal.
    replace (Rooms.colorIndex r + (j + 12)) with (Rooms.colorIndex r + j + 1 * 12)
      by lia.
    apply Nat.Div0.mod_add.
Qed.

Lemma colors_round_robin_witness :
  map Rooms.color
      (fst (Rooms.addUsers (Rooms.newRoom "main")
                           [("sock-a", "Ann", 1%Z); ("sock-b", "", 2%Z)]))
  = ["#FF6B6B"; "#4ECDC4"] /\
  NoDup (map Rooms.color
             (fst (Rooms.addUsers (Rooms.newRoom "main")
                                  [("sock-a", "Ann", 1%Z); ("sock-b", "", 2%Z)]))).
Proof.
  split; [reflexivity |].
  apply (proj1 (proj2 (proj2 (colors_round_robin (Rooms.newRoom "main")
                                [("sock-a", "Ann", 1%Z); ("sock-b", "", 2%Z)])))).
  simpl. lia.
Defined.

(** ** [RoomManager] *)

(** X16. [getOrCreateRoom] returns the room registered under the id when
    there is one, leaving the manager as it is; otherwise it registers and
    returns a new empty room bearing that id. Either way [getRoom] then
    finds the returned room, the other ids are untouched, and asking again
    returns the same room without further change. *)
Theorem getOrCreateRoom_spec (m : Rooms.RoomManager) (rid : string) :
  (forall room, Rooms.getRoom m rid = Some room ->
     Rooms.getOrCreateRoom m (Some rid) = (room, m)) /\
  (Rooms.getRoom m rid = None ->
     fst (Rooms.getOrCreateRoom m (Some rid)) = Rooms.mkRoom rid [] 0) /\
  Rooms.getRoom (snd (Rooms.getOrCreateRoom m (Some rid))) rid
  = Some (fst (Rooms.getOrCreateRoom m (Some rid))) /\
  (forall rid', rid' <> rid ->
     Rooms.getRoom (snd (Rooms.getOrCreateRoom m (Some rid))) rid'
     = Rooms.getRoom m rid') /\
  Rooms.getOrCreateRoom (snd (Rooms.getOrCreateRoom m (Some rid))) (Some rid)
  = Rooms.getOrCreateRoom m (Some rid).
Proof.
  unfold Rooms.getRoom, Rooms.getOrCreateRoom.
  destruct (smap_get rid m) as [room |] eqn:E; cbn [fst snd].
  - split; [intros r H; now inversion H |].
    split; [discriminate |]. split; [exact E |]. split; [auto |].
    now rewrite E.
  - split; [discriminate |]. split; [reflexivity |].
    split; [apply smap_get_set_same |].
    split; [intros rid' Hne; now apply smap_get_set_other |].
    now rewrite smap_get_set_same.
Qed.

Lemma getOrCreateRoom_spec_witness :
  Rooms.getRoom [] "main" = None /\
  Rooms.getOrCreateRoom [] None
  = (Rooms.mkRoom "main" [] 0, [("main", Rooms.mkRoom "main" [] 0)]) /\
  fst (Rooms.getOrCreateRoom [] (Some "main")) = Rooms.mkRoom "main" [] 0.
Proof.
  split; [reflexivity |]. split; [reflexivity |].
  exact (proj1 (proj2 (getOrCreateRoom_spec [] "main")) eq_refl).
Defined.

(** X17. [removeRoomIfEmpty] returns [true] exactly when the id is
    registered with a room that has no user. When it returns [false] the
    manager is unchanged; when it returns [true], [getRoom] no longer finds
    the id and the other ids are untouched. A room that was just created by
    [getOrCreateRoom] is removed again, giving back the old manager. *)
Theorem removeRoomIfEmpty_spec (m : Rooms.RoomManager) (rid : string) :
  (fst (Rooms.removeRoomIfEmpty m rid) = true <->
   exists room, Rooms.getRoom m rid = Some room /\ Rooms.userCount room = 0) /\
  (fst (Rooms.removeRoomIfEmpty m rid) = false ->
   snd (Rooms.removeRoomIfEmpty m rid) = m) /\
  (fst (Rooms.removeRoomIfEmpty m rid) = true ->
   Rooms.getRoom (snd (Rooms.removeRoomIfEmpty m rid)) rid = None /\
   forall rid', rid' <> rid ->
     Rooms.getRoom (snd (Rooms.removeRoomIfEmpty m rid)) rid'
     = Rooms.getRoom m rid') /\
  (Rooms.getRoom m rid = None ->
   Rooms.removeRoomIfEmpty (snd (Rooms.getOrCreateRoom m (Some rid))) rid
   = (true, m)).
Proof.
  unfold Rooms.getRoom, Rooms.removeRoomIfEmpty, Rooms.isEmpty, Rooms.userCount.
  split; [| split; [| split]].
  - destruct (smap_get rid m) as [room |] eqn:E; cbn [fst].
    + destruct (Nat.eqb_spec (List.length (Rooms.users room)) 0) as [H0 | H0];
        cbn [fst].
      * split; eauto.
      * split; [discriminate |]. intros (r' & Hr & Hc).
        inversion Hr; subst. contradiction.
    + split; [discriminate |]. intros (r' & Hr & _). discriminate.
  - destruct (smap_get rid m) as [room |]; cbn [fst snd]; auto.
    destruct (Nat.eqb (List.length (Rooms.users room)) 0); cbn [fst snd];
      [discriminate | auto].
  - destruct (smap_get rid m) as [room |]; cbn [fst snd]; [| discriminate].
    destruct (Nat.eqb (List.length (Rooms.users room)) 0); cbn [fst snd];
      [| discriminate].
    intros _. split; [apply smap_get_delete_same |].
    intros rid' Hne. now apply smap_get_delete_other.
  - intros E. unfold Rooms.getOrCreateRoom. rewrite E. cbn [snd].
    rewrite smap_get_set_same. simpl. now rewrite smap_delete_set_absent.
Qed.

Lemma removeRoomIfEmpty_spec_witness :
  fst (Rooms.removeRoomIfEmpty
         [("main", snd (Rooms.addUser (Rooms.newRoom "main") "sock-a" "Ann" 1))]
         "main") = false /\
  snd (Rooms.removeRoomIfEmpty
         [("main", snd (Rooms.addUser (Rooms.newRoom "main") "sock-a" "Ann" 1))]
         "main")
  = [("main", snd (Rooms.addUser (Rooms.newRoom "main") "sock-a" "Ann" 1))].
Proof.
  split; [reflexivity |].
  exact (proj1 (proj2 (removeRoomIfEmpty_spec
                         [("main", snd (Rooms.addUser (Rooms.newRoom "main")
                                                      "sock-a" "Ann" 1))]
                         "main")) eq_refl).
Defined.

(** * The undo, redo and clear handlers *)

Lemma getOrCreateState_present rs rid st :
  smap_get rid rs = Some st -> getOrCreateState rs rid = (st, rs).
Proof. intros H. unfold getOrCreateState. now rewrite H. Qed.

(** The list of visible strokes depends on the store, on the stroke
    operations of the log and on the visibility of each key. *)
Lemma getVisibleStrokes_ext st1 st2 :
  strokes st1 = strokes st2 ->
  strokeOrder (operations st1) = strokeOrder (operations st2) ->
  (forall k, isStrokeVisible st1 k = isStrokeVisible st2 k) ->
  getVisibleStrokes st1 = getVisibleStrokes st2.
Proof.
  intros Hs Ho Hv. unfold getVisibleStrokes. rewrite Hs, Ho.
  do 2 f_equal. apply filter_ext. intros kv. apply Hv.
Qed.

Lemma wf_after_undo st user tgt newId now :
  wf_state st ->
  fresh st (UndoStroke user tgt newId now) = true ->
  present st tgt = true -> isStrokeVisible st tgt = true ->
  undoStroke st user tgt newId now
  = (Some newId,
     mkState (strokes st) (operations st ++ [OpUndo tgt now user newId])) /\
  wf_state (mkState (strokes st) (operations st ++ [OpUndo tgt now user newId])).
Proof.
  intros Hwf Hf Hp Hv.
  assert (Heq : undoStroke st user tgt newId now
                = (Some newId,
                   mkState (strokes st)
                           (operations st ++ [OpUndo tgt now user newId]))).
  { unfold undoStroke, present in *.
    destruct (map_get tgt (strokes st)); [| discriminate]. now rewrite Hv. }
  split; [exact Heq |].
  pose proof (step_wf st (UndoStroke user tgt newId now) Hwf Hf) as H.
  simpl in H. now rewrite Heq in H.
Qed.

(** On a well-formed state the visible strokes after a fresh undo are the
    old ones without the target. *)
Lemma getVisibleStrokes_after_undo st user tgt newId now :
  wf_state st ->
  wf_state (mkState (strokes st) (operations st ++ [OpUndo tgt now user newId])) ->
  ~ In newId (redoTargets (operations st)) ->
  getVisibleStrokes
    (mkState (strokes st) (operations st ++ [OpUndo tgt now user newId]))
  = filter (fun s => negb (String.eqb (id s) tgt)) (getVisibleStrokes st).
Proof.
  intros Hwf Hwf1 Hnr.
  rewrite (getVisibleStrokes_unsorted _ Hwf1), (getVisibleStrokes_unsorted _ Hwf).
  cbn [strokes]. rewrite filter_map_snd, filter_twice. f_equal.
  apply filter_ext_in. intros [k s] Hin. cbn [fst snd].
  rewrite visible_after_fresh_undo by assumption.
  rewrite (wf_key_id _ Hwf _ _ Hin), (String.eqb_sym tgt k).
  now destruct (String.eqb k tgt), (isStrokeVisible st k).
Qed.

Lemma last_visible_in_store st user i :
  wf_state st ->
  getLastVisibleStrokeByUser st user = Some i ->
  present st i = true /\ isStrokeVisible st i = true.
Proof.
  intros Hwf Hg.
  rewrite (getLastVisibleStrokeByUser_store st user Hwf) in Hg.
  destruct (last_opt (filter (undo_candidate st user) (strokes st)))
    as [[k s] |] eqn:E; [| discriminate].
  simpl in Hg. inversion Hg; subst k.
  apply last_opt_In, filter_In in E. destruct E as [Hin Hc].
  apply undo_candidate_iff in Hc. destruct Hc as (Hv & _ & _).
  split; auto. unfold present.
  now rewrite (map_get_of_In _ _ _ (wf_store_nodup _ Hwf) Hin).
Qed.

Lemma unused_fresh st c i :
  generated c = Some i -> mem_string i (ids_of_state st) = false ->
  fresh st c = true.
Proof. intros Hg Hm. unfold fresh. now rewrite Hg, Hm. Qed.

Lemma onUndo_bare room user rs st newId now i :
  smap_get (Rooms.room_id room) rs = Some st ->
  wf_state st ->
  mem_string newId (ids_of_state st) = false ->
  newId <> "" ->
  getLastVisibleStrokeByUser st (Rooms.id user) = Some i -> i <> "" ->
  onUndo (joined room user) rs None newId now
  = (smap_set (Rooms.room_id room)
              (mkState (strokes st)
                       (operations st ++ [OpUndo i now (Rooms.id user) newId]))
              rs,
     [EmitUndo (Rooms.room_id room) (Rooms.id user) i newId
               (filter (fun s => negb (String.eqb (id s) i))
                       (getVisibleStrokes st))]).
Proof.
  intros Hrs Hwf Hm Hne Hg Hi.
  unfold onUndo, joined. cbn [currentRoom currentUser].
  rewrite (getOrCreateState_present _ _ _ Hrs). cbn [or_else].
  rewrite Hg. apply String.eqb_neq in Hi. rewrite Hi.
  destruct (last_visible_in_store _ _ _ Hwf Hg) as [Hp Hv].
  assert (Hf : fresh st (UndoStroke (Rooms.id user) i newId now) = true)
    by (eapply unused_fresh; eauto; reflexivity).
  destruct (wf_after_undo st (Rooms.id user) i newId now Hwf Hf Hp Hv)
    as [Heq Hwf1].
  rewrite Heq. apply String.eqb_neq in Hne. rewrite Hne.
  rewrite getVisibleStrokes_after_undo; auto.
  eapply fresh_not_redo_target; eauto.
Qed.

(** X18. The [UNDO] handler without an explicit target, for a joined
    connection whose room has a reachable drawing state: if the user has no
    visible completed stroke, nothing is stored and nothing is sent;
    otherwise exactly the user's last such stroke is undone and the
    broadcast carries the old visible strokes without it. *)
Theorem bare_undo_hides_last (room : Rooms.Room) (user : Rooms.User)
    (rs : RoomStates) (st : DrawingState) (newId : string) (now : Z) :
  smap_get (Rooms.room_id room) rs = Some st ->
  reachable st ->
  mem_string newId (ids_of_state st) = false ->
  newId <> "" ->
  (getLastVisibleStrokeByUser st (Rooms.id user) = None ->
   onUndo (joined room user) rs None newId now = (rs, [])) /\
  (forall i,
     getLastVisibleStrokeByUser st (Rooms.id user) = Some i -> i <> "" ->
     onUndo (joined room user) rs None newId now
     = (smap_set (Rooms.room_id room)
                 (mkState (strokes st)
                          (operations st
                           ++ [OpUndo i now (Rooms.id user) newId])) rs,
        [EmitUndo (Rooms.room_id room) (Rooms.id user) i newId
                  (filter (fun s => negb (String.eqb (id s) i))
                          (getVisibleStrokes st))])).
Proof.
  intros Hrs Hr Hm Hne. pose proof (reachable_wf st Hr) as Hwf.
  split.
  - intros Hg. unfold onUndo, joined. cbn [currentRoom currentUser].
    rewrite (getOrCreateState_present _ _ _ Hrs). cbn [or_else].
    now rewrite Hg.
  - intros i Hg Hi. now apply onUndo_bare.
Qed.

(** X19. Undo then redo over the wire: after the [UNDO] handler has undone
    the user's last stroke, the [REDO] handler without an explicit target,
    on the same connection, redoes exactly that undo, and its broadcast
    carries the visible strokes as they were before the undo. *)
Theorem bare_undo_then_redo (room : Rooms.Room) (user : Rooms.User)
    (rs : RoomStates) (st : DrawingState) (newId : string) (now : Z)
    (redoId : string) (now' : Z) (i : string) :
  smap_get (Rooms.room_id room) rs = Some st ->
  reachable st ->
  mem_string newId (ids_of_state st) = false ->
  newId <> "" ->
  getLastVisibleStrokeByUser st (Rooms.id user) = Some i -> i <> "" ->
  onRedo (joined room user)
         (fst (onUndo (joined room user) rs None newId now)) None redoId now'
  = (smap_set (Rooms.room_id room)
              (mkState (strokes st)
                       ((operations st ++ [OpUndo i now (Rooms.id user) newId])
                        ++ [OpRedo newId now' (Rooms.id user) redoId]))
              (fst (onUndo (joined room user) rs None newId now)),
     [EmitRedo (Rooms.room_id room) (Rooms.id user) newId
               (getVisibleStrokes st)]).
Proof.
  intros Hrs Hr Hm Hne Hg Hi. pose proof (reachable_wf st Hr) as Hwf.
  rewrite (onUndo_bare room user rs st newId now i); auto. cbn [fst].
  assert (Hf : fresh st (UndoStroke (Rooms.id user) i newId now) = true)
    by (eapply unused_fresh; eauto; reflexivity).
  pose proof (fresh_not_redo_target _ _ _ Hf eq_refl) as Hnr.
  pose proof (fresh_not_undo_id _ _ _ Hf eq_refl) as Hnu.
  unfold onRedo, joined. cbn [currentRoom currentUser].
  rewrite (getOrCreateState_present _ (Rooms.room_id room)
             (mkState (strokes st)
                      (operations st ++ [OpUndo i now (Rooms.id user) newId])))
    by apply smap_get_set_same.
  cbn [or_else]. rewrite last_open_undo_snoc by assumption.
  apply String.eqb_neq in Hne. rewrite Hne.
  destruct (redo_of_fresh_undo st i now (Rooms.id user) newId
                               (Rooms.id user) redoId now' Hnu Hnr)
    as [Heq Hvis].
  rewrite Heq. do 3 f_equal.
  apply getVisibleStrokes_ext; auto.
  cbn [operations]. rewrite !strokeOrder_app. simpl. now rewrite !app_nil_r.
Qed.

Lemma bare_undo_hides_last_witness :
  getLastVisibleStrokeByUser sample_state "a1" = Some "s1" /\
  snd (onUndo (joined (Rooms.newRoom "main")
                      (Rooms.mkUser "a1" "sock-a" "Ann" "#FF6B6B" None 0))
              [("main", sample_state)] None "u9" 9)
  = [EmitUndo "main" "a1" "s1" "u9" []].
Proof.
  split; [reflexivity |].
  rewrite (proj2 (bare_undo_hides_last
                    (Rooms.newRoom "main")
                    (Rooms.mkUser "a1" "sock-a" "Ann" "#FF6B6B" None 0)
                    [("main", sample_state)] sample_state "u9" 9%Z
                    eq_refl sample_reachable eq_refl
                    ltac:(discriminate))
                 "s1" eq_refl ltac:(discriminate)).
  reflexivity.
Defined.

Lemma bare_undo_then_redo_witness :
  getLastVisibleStrokeByUser sample_state "a1" = Some "s1" /\
  snd (onRedo (joined (Rooms.newRoom "main")
                      (Rooms.mkUser "a1" "sock-a" "Ann" "#FF6B6B" None 0))
              (fst (onUndo (joined (Rooms.newRoom "main")
                                   (Rooms.mkUser "a1" "sock-a" "Ann" "#FF6B6B"
                                                 None 0))
                           [("main", sample_state)] None "u9" 9))
              None "r9" 10)
  = [EmitRedo "main" "a1" "u9" (getVisibleStrokes sample_state)].
Proof.
  split; [reflexivity |].
  now rewrite (bare_undo_then_redo
                 (Rooms.newRoom "main")
                 (Rooms.mkUser "a1" "sock-a" "Ann" "#FF6B6B" None 0)
                 [("main", sample_state)] sample_state "u9" 9%Z "r9" 10%Z "s1"
                 eq_refl sample_reachable eq_refl
                 ltac:(discriminate) eq_refl ltac:(discriminate)).
Defined.

(** ** Clearing the canvas *)

Lemma visible_ids st :
  wf_state st ->
  map id (getVisibleStrokes st)
  = filter (isStrokeVisible st) (map fst (strokes st)).
Proof.
  intros Hwf. rewrite (getVisibleStrokes_unsorted _ Hwf), filter_map_fst, map_map.
  apply map_ext_in. intros [k s] Hin. simpl.
  apply filter_In in Hin. apply (wf_key_id _ Hwf). tauto.
Qed.

Lemma present_iff st k : present st k = true <-> In k (map fst (strokes st)).
Proof.
  unfold present. destruct (map_get k (strokes st)) eqn:E.
  - split; auto. intros _.
    destruct (in_dec string_dec k (map fst (strokes st))) as [H | H]; auto.
    apply map_get_none_iff in H. congruence.
  - apply map_get_none_iff in E. split; [discriminate | contradiction].
Qed.

Lemma ids_of_state_after_undo st tgt now user newId i :
  In i (ids_of_state
          (mkState (strokes st) (operations st ++ [OpUndo tgt now user newId]))) ->
  In i (ids_of_state st) \/ i = newId \/ i = tgt.
Proof.
  unfold ids_of_state. cbn [strokes operations].
  rewrite flat_map_app, !in_app_iff. simpl. intuition.
Qed.

(** The loop of the clear handler on a list of distinct, stored, visible
    strokes, with ids from [gen] that are unused and never repeat. *)
Lemma undoEach_spec user gen : forall targets st n,
  wf_state st ->
  (forall s, In s targets ->
     present st (id s) = true /\ isStrokeVisible st (id s) = true) ->
  NoDup (map id targets) ->
  (forall j, n <= j -> ~ In (fst (gen j)) (ids_of_state st)) ->
  (forall j j', n <= j -> n <= j' -> fst (gen j) = fst (gen j') -> j = j') ->
  wf_state (fst (undoEach st user targets gen n)) /\
  strokes (fst (undoEach st user targets gen n)) = strokes st /\
  snd (undoEach st user targets gen n) = n + List.length targets /\
  (exists ext,
      operations (fst (undoEach st user targets gen n)) = operations st ++ ext /\
      undoTargetsOf ext = map id targets /\
      List.length ext = List.length targets /\
      strokeOrder ext = []) /\
  forall k,
    isStrokeVisible (fst (undoEach st user targets gen n)) k
    = if mem_string k (map id targets) then false else isStrokeVisible st k.
Proof.
  induction targets as [| s rest IH]; intros st n Hwf Hvis Hnd Hfresh Hinj.
  - simpl. split; [exact Hwf |]. split; [reflexivity |]. split; [lia |].
    split; [exists []; now rewrite app_nil_r | reflexivity].
  - cbn [undoEach].
    set (newId := fst (gen n)). set (now := snd (gen n)).
    destruct (Hvis s (or_introl eq_refl)) as [Hp Hv].
    assert (Hm : mem_string newId (ids_of_state st) = false)
      by (apply mem_string_false_iff, Hfresh; lia).
    assert (Hf : fresh st (UndoStroke user (id s) newId now) = true)
      by (eapply unused_fresh; eauto; reflexivity).
    destruct (wf_after_undo st user (id s) newId now Hwf Hf Hp Hv)
      as [Heq Hwf1].
    rewrite Heq.
    pose proof (fresh_not_redo_target _ _ _ Hf eq_refl) as Hnr.
    inversion Hnd as [| ? ? Hnotin Hnd']; subst.
    set (st1 := mkState (strokes st)
                        (operations st ++ [OpUndo (id s) now user newId])) in *.
    assert (Hv1 : forall k, isStrokeVisible st1 k
                            = if String.eqb (id s) k then false
                              else isStrokeVisible st k)
      by (intros k; now apply visible_after_fresh_undo).
    destruct (IH st1 (S n)) as (Hw & Hs & Hn & (ext & He & Ht & Hl & Ho) & Hk);
      auto.
    + intros s' Hin. destruct (Hvis s' (or_intror Hin)) as [Hp' Hv'].
      split; [exact Hp' |]. rewrite Hv1.
      destruct (String.eqb_spec (id s) (id s')) as [E | E]; auto.
      exfalso. apply Hnotin. rewrite E. now apply in_map.
    + intros j Hj Hin.
      apply ids_of_state_after_undo in Hin. destruct Hin as [H | [H | H]].
      * apply (Hfresh j); [lia | exact H].
      * apply Hinj in H; lia.
      * apply (Hfresh j); [lia |]. rewrite H.
        unfold ids_of_state. apply in_or_app. left. now apply present_iff.
    + intros j j' Hj Hj'. apply Hinj; lia.
    + split; [exact Hw |]. split; [exact Hs |]. split; [simpl; lia |]. split.
      * exists (OpUndo (id s) now user newId :: ext).
        rewrite He. unfold st1. cbn [operations]. rewrite <- app_assoc.
        simpl. rewrite Ht, Hl, Ho. auto.
      * intros k. rewrite Hk, Hv1. cbn [map mem_string existsb].
        fold (mem_string k (map id rest)). rewrite (String.eqb_sym k (id s)).
        now destruct (mem_string k (map id rest)), (String.eqb (id s) k).
Qed.

(** X20. The [CLEAR_CANVAS] handler, for a joined connection whose room has
    a reachable drawing state, with ids from [uuidv4()] that are unused and
    never repeat: it appends one undo per visible stroke, in the order of
    the visible list, touches no stroke, leaves every stroke of the store
    hidden, and broadcasts an empty list of visible strokes. *)
Theorem clear_canvas_hides_all (room : Rooms.Room) (user : Rooms.User)
    (rs : RoomStates) (st : DrawingState) (gen : nat -> string * Z) :
  smap_get (Rooms.room_id room) rs = Some st ->
  reachable st ->
  (forall j, ~ In (fst (gen j)) (ids_of_state st)) ->
  (forall j j', fst (gen j) = fst (gen j') -> j = j') ->
  exists st',
    onClearCanvas (joined room user) rs gen
    = (smap_set (Rooms.room_id room) st' rs,
       [EmitCanvasCleared (Rooms.room_id room) (Rooms.id user) []]) /\
    getVisibleStrokes st' = [] /\
    strokes st' = strokes st /\
    (exists ext,
        operations st' = operations st ++ ext /\
        undoTargetsOf ext = map id (getVisibleStrokes st) /\
        List.length ext = List.length (getVisibleStrokes st)) /\
    forall k s, getStroke st k = Some s -> isStrokeVisible st' k = false.
Proof.
  intros Hrs Hr Hfresh Hinj. pose proof (reachable_wf st Hr) as Hwf.
  pose proof (visible_ids st Hwf) as Hids.
  destruct (undoEach_spec (Rooms.id user) gen (getVisibleStrokes st) st 0)
    as (Hw & Hs & Hn & (ext & He & Ht & Hl & Ho) & Hk); auto.
  - intros s Hin.
    assert (Hi : In (id s) (map id (getVisibleStrokes st))) by now apply in_map.
    rewrite Hids in Hi. apply filter_In in Hi. destruct Hi as [Hkey Hv].
    split; auto. now apply present_iff.
  - rewrite Hids. apply NoDup_filter, (wf_store_nodup _ Hwf).
  - assert (Hhidden : forall k, In k (map fst (strokes st)) ->
                                isStrokeVisible
                                  (fst (undoEach st (Rooms.id user)
                                                 (getVisibleStrokes st) gen 0)) k
                                = false).
    { intros k Hkey. rewrite Hk, Hids.
      destruct (mem_string k (filter (isStrokeVisible st) (map fst (strokes st))))
        eqn:Em; auto.
      apply mem_string_false_iff in Em.
      destruct (isStrokeVisible st k) eqn:Ev; auto.
      exfalso. apply Em. apply filter_In. auto. }
    assert (Hempty : getVisibleStrokes
                       (fst (undoEach st (Rooms.id user)
                                      (getVisibleStrokes st) gen 0)) = []).
    { rewrite (getVisibleStrokes_unsorted _ Hw), Hs.
      rewrite (proj2 (filter_nil_iff _ _)); [reflexivity |].
      intros [k s] Hin. simpl. apply Hhidden.
      apply in_map_iff. now exists (k, s). }
    exists (fst (undoEach st (Rooms.id user) (getVisibleStrokes st) gen 0)).
    split; [| split; [exact Hempty | split; [exact Hs | split; [eauto |]]]].
    + unfold onClearCanvas, joined. cbn [currentRoom currentUser].
      rewrite (getOrCreateState_present _ _ _ Hrs).
      destruct (undoEach st (Rooms.id user) (getVisibleStrokes st) gen 0)
        as [st' n'] eqn:Eu.
      cbn [fst] in Hempty. now rewrite Hempty.
    + intros k s Hg. apply Hhidden. unfold getStroke in Hg.
      apply present_iff. unfold present. now rewrite Hg.
Qed.

Lemma bars_inj j : forall j', bars j = bars j' -> j = j'.
Proof.
  induction j as [| j IH]; intros [| j'] H; simpl in H; try discriminate; auto.
  inversion H. f_equal. auto.
Qed.

Lemma clear_canvas_hides_all_witness :
  map id (getVisibleStrokes (run emptyState (firstn 5 sample_cmds)))
  = ["s1"; "s2"] /\
  exists st',
    onClearCanvas (joined (Rooms.newRoom "main")
                          (Rooms.mkUser "a1" "sock-a" "Ann" "#FF6B6B" None 0))
                  [("main", run emptyState (firstn 5 sample_cmds))] sample_gen
    = (smap_set "main" st' [("main", run emptyState (firstn 5 sample_cmds))],
       [EmitCanvasCleared "main" "a1" []]) /\
    getVisibleStrokes st' = [].
Proof.
  split; [reflexivity |].
  destruct (clear_canvas_hides_all
              (Rooms.newRoom "main")
              (Rooms.mkUser "a1" "sock-a" "Ann" "#FF6B6B" None 0)
              [("main", run emptyState (firstn 5 sample_cmds))]
              (run emptyState (firstn 5 sample_cmds)) sample_gen)
    as (st' & H1 & H2 & _).
  - reflexivity.
  - exists (firstn 5 sample_cmds). split; reflexivity.
  - intros j. simpl. intuition discriminate.
  - intros j j' H. simpl in H. inversion H. now apply bars_inj.
  - exists st'. split; assumption.
Defined.

(** ** Points appended to a stroke, as the visible list shows them *)

Lemma map_set_as_map m k v s :
  NoDup (map fst m) -> map_get k m = Some s ->
  map_set k v m = map (fun kv => if String.eqb (fst kv) k then (k, v) else kv) m.
Proof.
  induction m as [| [k0 v0] m IH]; simpl; [discriminate |].
  intros Hnd Hg. inversion Hnd as [| ? ? Hn Hnd']; subst.
  destruct (String.eqb_spec k0 k) as [-> | Hne].
  - f_equal. symmetry. rewrite <- (map_id m) at 2. apply map_ext_in.
    intros [k1 v1] Hin. simpl.
    destruct (String.eqb_spec k1 k) as [-> | Hk]; auto.
    exfalso. apply Hn. apply in_map_iff. now exists (k, v1).
  - f_equal. now apply IH.
Qed.

Lemma filter_map_comm {A B} (f : A -> B) (p : B -> bool) (l : list A) :
  filter p (map f l) = map f (filter (fun a => p (f a)) l).
Proof.
  induction l as [| a l IH]; simpl; auto.
  destruct (p (f a)); simpl; now rewrite IH.
Qed.

(** X21. In a reachable state, [appendPoints] on a stored stroke with a
    batch within the number of arguments the engine admits changes the list
    of visible strokes only in that stroke's point sequence: same strokes,
    same order, the new points at the end of the target if it is visible (a
    hidden stroke takes the points without showing up). With a longer batch
    the call throws and the list is what it was. *)
Theorem appendPoints_visible (st : DrawingState) (k : string) (s : Stroke)
    (pts : list Point) (maxArgs : nat) :
  reachable st ->
  getStroke st k = Some s ->
  ((List.length pts <= maxArgs)%nat ->
   fst (appendPoints st k pts maxArgs) = Returned true /\
   getVisibleStrokes (snd (appendPoints st k pts maxArgs))
   = map (extend_if k pts) (getVisibleStrokes st)) /\
  ((maxArgs < List.length pts)%nat ->
   fst (appendPoints st k pts maxArgs) = ThrownRangeError /\
   getVisibleStrokes (snd (appendPoints st k pts maxArgs)) = getVisibleStrokes st) /\
  (isStrokeVisible st k = false ->
   getVisibleStrokes (snd (appendPoints st k pts maxArgs)) = getVisibleStrokes st).
Proof.
  intros Hr Hg. pose proof (reachable_wf st Hr) as Hwf.
  unfold getStroke in Hg.
  assert (Hover : (maxArgs < List.length pts)%nat ->
                  appendPoints st k pts maxArgs = (ThrownRangeError, st)).
  { intros Hlen. apply Nat.leb_gt in Hlen.
    unfold appendPoints. now rewrite Hg, Hlen. }
  assert (Heq : (List.length pts <= maxArgs)%nat ->
                getVisibleStrokes (snd (appendPoints st k pts maxArgs))
                = map (extend_if k pts) (getVisibleStrokes st)).
  { intros Hlen. apply Nat.leb_le in Hlen.
    assert (Hwf' : wf_state (snd (appendPoints st k pts maxArgs))).
    { unfold appendPoints. rewrite Hg, Hlen. cbn [snd].
      eapply wf_store_update; eauto. }
    rewrite (getVisibleStrokes_unsorted _ Hwf'),
      (getVisibleStrokes_unsorted _ Hwf).
    unfold appendPoints. rewrite Hg, Hlen. cbn [snd strokes].
    rewrite (map_set_as_map _ _ _ s (wf_store_nodup _ Hwf) Hg).
    rewrite filter_map_comm, !map_map.
    transitivity
      (map (fun kv => extend_if k pts (snd kv))
           (filter (fun kv => isStrokeVisible st (fst kv)) (strokes st))).
    - rewrite (filter_ext
                 (fun a : string * Stroke =>
                    isStrokeVisible
                      {| strokes :=
                           map (fun kv : string * Stroke =>
                                  if String.eqb (fst kv) k
                                  then (k, mkStroke (id s) (userId s) (tool s)
                                                    (color s) (width s)
                                                    (points s ++ pts)
                                                    (complete s))
                                  else kv) (strokes st);
                         operations := operations st |}
                      (fst (if String.eqb (fst a) k
                            then (k, mkStroke (id s) (userId s) (tool s)
                                              (color s) (width s)
                                              (points s ++ pts) (complete s))
                            else a)))
                 (fun kv => isStrokeVisible st (fst kv))).
      + apply map_ext_in. intros [k0 s0] Hin. apply filter_In in Hin.
        destruct Hin as [Hin _]. cbn [fst snd].
        pose proof (wf_key_id _ Hwf _ _ Hin) as Hid. unfold extend_if.
        rewrite Hid. destruct (String.eqb_spec k0 k) as [-> | Hne]; auto.
        cbn [snd].
        rewrite (map_get_of_In _ _ _ (wf_store_nodup _ Hwf) Hin) in Hg.
        assert (Hs : s0 = s) by congruence. subst s0. now rewrite Hid.
      + intros [k0 s0]. cbn [fst].
        destruct (String.eqb_spec k0 k) as [-> | Hne]; reflexivity.
    - reflexivity. }
  split; [| split].
  - intros Hlen. split; [| now apply Heq].
    apply Nat.leb_le in Hlen. unfold appendPoints. now rewrite Hg, Hlen.
  - intros Hlen. now rewrite (Hover Hlen).
  - intros Hh.
    destruct (Nat.le_gt_cases (List.length pts) maxArgs) as [Hlen | Hlen];
      [| now rewrite (Hover Hlen)].
    rewrite (Heq Hlen). rewrite <- (map_id (getVisibleStrokes st)) at 2.
    apply map_ext_in. intros s' Hin.
    assert (Hi : In (id s') (map id (getVisibleStrokes st))) by now apply in_map.
    rewrite (visible_ids st Hwf) in Hi. apply filter_In in Hi.
    unfold extend_if. destruct (String.eqb_spec (id s') k) as [E | E]; auto.
    rewrite E in Hi. destruct Hi as [_ Hv]. congruence.
Qed.

Lemma appendPoints_visible_witness :
  reachable sample_state /\
  map points (getVisibleStrokes
                (snd (appendPoints sample_state "s1" [mkPoint 2 3 11] 1)))
  = [[mkPoint 1 1 10; mkPoint 2 3 11]] /\
  getVisibleStrokes (snd (appendPoints sample_state "s1" [mkPoint 2 3 11] 0))
  = getVisibleStrokes sample_state /\
  getVisibleStrokes (snd (appendPoints sample_state "s2" [mkPoint 2 3 11] 1))
  = getVisibleStrokes sample_state.
Proof.
  split; [exact sample_reachable |]. split; [| split].
  - rewrite (proj2 (proj1 (appendPoints_visible sample_state "s1"
                      (mkStroke "s1" "a1" brush "#000000" 4 [mkPoint 1 1 10] true)
                      [mkPoint 2 3 11] 1 sample_reachable eq_refl)
                      (le_n 1))).
    reflexivity.
  - exact (proj2 (proj1 (proj2 (appendPoints_visible sample_state "s1"
                    (mkStroke "s1" "a1" brush "#000000" 4 [mkPoint 1 1 10] true)
                    [mkPoint 2 3 11] 0 sample_reachable eq_refl))
                    (le_n 1))).
  - exact (proj2 (proj2 (appendPoints_visible sample_state "s2"
                    (mkStroke "s2" "a2" eraser "#ff0000" 2 [] true)
                    [mkPoint 2 3 11] 1 sample_reachable eq_refl)) eq_refl).
Defined.

Lemma getLastUndoByUser_spec_witness :
  exists before tgt ts after,
    operations sample_state = before ++ OpUndo tgt ts "a1" "u1" :: after /\
    ~ In "u1" (redoTargets (operations sample_state)).
Proof.
  destruct (proj1 (proj2 (getLastUndoByUser_spec sample_state "a1") "u1") eq_refl)
    as (b & tgt & ts & a & H & Hn & _).
  exists b, tgt, ts, a. split; assumption.
Defined.

Lemma addUser_getUser_witness :
  Rooms.getUser (snd (Rooms.addUser (Rooms.newRoom "main") "sock-abcdefgh" "" 5))
                "sock-abcdefgh"
  = Some (Rooms.mkUser "user_sock-abc" "sock-abcdefgh" "User 1" "#FF6B6B" None 5).
Proof.
  rewrite (proj1 (addUser_getUser (Rooms.newRoom "main") "sock-abcdefgh" "" 5)).
  reflexivity.
Defined.
